(** * maxdefense: greedy and exhaustive selection of armor within a gold budget

    A shallow embedding of [maxdefense.hh].

    - An [ArmorVector] (a [std::vector] of shared pointers to immutable
      [ArmorItem] objects) is a list of item records: the items have no
      setter, so a pointer is represented by the record it points to.
    - The [double] fields and accumulators (gold cost, defense points) are
      modelled twice.  The first definitions take them as exact rationals
      [Q], the values the code computes as long as no sum and no quotient is
      rounded; they carry the statements on the masks that the loop tries,
      the assertion, the filter and the order of the results.  Module [IEEE]
      is the same code on binary64 numbers, with every sum and quotient
      rounded and the comparisons of IEEE 754; the statements on computed
      costs, defenses and efficiencies are made there.
    - Machine integers are [Z] with their conversions written out, as on
      an LP64 target with IEEE 754 doubles: [size_t -> int] ([int_of_size],
      modulo 2^32), [int -> size_t] ([size_of_int], modulo 2^64) and
      [uint64_t -> double] ([uint64_to_double], round to nearest, ties to
      even, 53-bit significand).
    - [assert] is modelled as in a build without [NDEBUG]: a failed
      assertion aborts, which is the result [None]. *)

From Stdlib Require Import ZArith QArith Lqa Lia String Ascii Bool Sorted.
From Stdlib Require Import Floats.
From stdpp Require Import base list.

Local Open Scope Z_scope.

(** ** Integer conversions *)

(** [size_t] to [int] (the initialiser [const int n = armors.size()]):
    reduction modulo 2^32 into the range [-2^31, 2^31). *)
Definition int_of_size (sz : Z) : Z := (sz + 2 ^ 31) mod 2 ^ 32 - 2 ^ 31.

(** [int] to [size_t] (the usual arithmetic conversions in a comparison of a
    [size_t] with an [int], and the constant [-1] stored in a [size_t]). *)
Definition size_of_int (i : Z) : Z := i mod 2 ^ 64.

(** [uint64_t] to [double], as the comparison [bits < pow(2,n)] converts its
    left operand: values below 2^53 are exact; above, the low [k] bits are
    rounded away, to nearest and to even on a tie.  The result is the integer
    value of the double. *)
Definition uint64_to_double (b : Z) : Z :=
  if b <? 2 ^ 53 then b
  else
    let k := Z.log2 b - 52 in
    let q := Z.shiftr b k in
    let r := Z.land b (Z.ones k) in
    let half := 2 ^ (k - 1) in
    let q' := if (half <? r) || ((r =? half) && Z.odd q) then q + 1 else q in
    Z.shiftl q' k.

(** ** Items and vectors *)

Record ArmorItem : Type := mkArmorItem {
  description : string;
  cost : Q;
  defense : Q
}.

Abbreviation ArmorVector := (list ArmorItem).

(** The two assertions of the constructor. *)
Definition ArmorItem_ok (a : ArmorItem) : Prop :=
  description a <> EmptyString /\ (0 < cost a)%Q.

(** [v.push_back(x)] *)
Definition push_back {A : Type} (v : list A) (x : A) : list A := v ++ [x].

(** [v.erase(v.begin() + i)] *)
Definition erase {A : Type} (v : list A) (i : nat) : list A :=
  firstn i v ++ skipn (S i) v.

(** [x > y] on doubles. *)
Definition Qgt_bool (x y : Q) : bool := negb (Qle_bool x y).

(** ** sum_armor_vector *)

Definition sum_armor_vector (armors : ArmorVector) : Q * Q :=
  fold_left
    (fun acc armor => ((fst acc + cost armor)%Q, (snd acc + defense armor)%Q))
    armors (0%Q, 0%Q).

Definition total_cost_of (armors : ArmorVector) : Q := fst (sum_armor_vector armors).
Definition total_defense_of (armors : ArmorVector) : Q := snd (sum_armor_vector armors).

(** ** filter_armor_vector *)

(** The range-for loop over [source]; [filtered] is the vector built so far.
    The size test follows the push and compares a [size_t] with the [int]
    parameter [total_size]. *)
Fixpoint filter_loop (source : ArmorVector) (min_defense max_defense : Q)
    (total_size : Z) (filtered : ArmorVector) : ArmorVector :=
  match source with
  | [] => filtered
  | armor :: rest =>
      if Qle_bool min_defense (defense armor) && Qle_bool (defense armor) max_defense
      then
        let filtered' := push_back filtered armor in
        if size_of_int total_size <=? Z.of_nat (length filtered')
        then filtered'
        else filter_loop rest min_defense max_defense total_size filtered'
      else filter_loop rest min_defense max_defense total_size filtered
  end.

Definition filter_armor_vector (source : ArmorVector) (min_defense max_defense : Q)
    (total_size : Z) : ArmorVector :=
  filter_loop source min_defense max_defense total_size [].

(** ** greedy_max_defense *)

(** The locals of one round's scan of [todo]. *)
Record scan_state : Type := mkScan {
  max_armor_index : Z;
  max_armor : ArmorItem;
  max_armor_value : Q
}.

(** The [for] loop over [i]: [pool] is what remains of [todo] from index [i]
    on, and [armor = todo->at(i)] is its head. *)
Fixpoint scan (pool : ArmorVector) (i : Z) (result_cost total_cost : Q)
    (s : scan_state) : scan_state :=
  match pool with
  | [] => s
  | armor :: rest =>
      let s' :=
        if Qle_bool (result_cost + cost armor) total_cost then
          let armor_value := (defense armor / cost armor)%Q in
          if Qgt_bool armor_value (max_armor_value s)
          then mkScan i armor armor_value
          else s
        else s in
      scan rest (i + 1) result_cost total_cost s'
  end.

(** The state of the function: the caller's vector (a [const] reference) and
    the locals [todo], [result] and [result_cost]. *)
Record greedy_state : Type := mkGreedy {
  g_armors : ArmorVector;
  todo : ArmorVector;
  result : ArmorVector;
  result_cost : Q
}.

(** One round of the [while] loop: [None] when the loop ends, either because
    [todo] is empty or by the [break] on [max_armor_index == -1]. *)
Definition greedy_round (total_cost : Q) (st : greedy_state) : option greedy_state :=
  match todo st with
  | [] => None
  | first :: _ =>
      let s := scan (todo st) 0 (result_cost st) total_cost
                 (mkScan (size_of_int (-1)) first 0%Q) in
      if max_armor_index s =? size_of_int (-1) then None
      else
        Some (mkGreedy (g_armors st)
                (erase (todo st) (Z.to_nat (max_armor_index s)))
                (push_back (result st) (max_armor s))
                (result_cost st + cost (max_armor s))%Q)
  end.

(** The [while (todo->size() != 0)] loop.  Each round that goes on erases one
    element of [todo], so the size of [todo] bounds the number of rounds
    ([greedy_loop_fuel_enough] below). *)
Fixpoint greedy_loop (fuel : nat) (total_cost : Q) (st : greedy_state) : greedy_state :=
  match fuel with
  | O => st
  | S fuel' =>
      match greedy_round total_cost st with
      | None => st
      | Some st' => greedy_loop fuel' total_cost st'
      end
  end.

Definition greedy_run (armors : ArmorVector) (total_cost : Q) : greedy_state :=
  greedy_loop (length armors) total_cost (mkGreedy armors armors [] 0%Q).

Definition greedy_max_defense (armors : ArmorVector) (total_cost : Q) : ArmorVector :=
  result (greedy_run armors total_cost).

(** ** exhaustive_max_defense *)

(** The inner [for] loop over [j]: the test [((bits >> j) & 1) == 1] and the
    push of [armors[j]].  A non-negative [n] is at most the size of the
    vector, so [armors[j]] is in range.  With a negative [n] the only mask the
    outer loop reaches is 0, which has no bit set: nothing is pushed (the
    shifts by 64 or more that the source goes on to are not modelled). *)
Definition inner_step (armors : ArmorVector) (bits : Z) (candidates : ArmorVector)
    (j : nat) : ArmorVector :=
  if Z.land (Z.shiftr bits (Z.of_nat j)) 1 =? 1 then
    match armors !! j with
    | Some a => push_back candidates a
    | None => candidates
    end
  else candidates.

Definition build_candidates (armors : ArmorVector) (n bits : Z) : ArmorVector :=
  fold_left (inner_step armors bits) (seq 0 (Z.to_nat n)) [].

(** The guard [bits < pow(2,n)].  [pow] returns a [double], so the [uint64_t]
    counter is converted to [double] and the comparison is one of doubles.
    [pow(2,n)] is the exact power for [0 <= n < 64]; for a negative [n] it is
    a positive double below 1 down to 2^-1074 and 0 below that. *)
Definition loop_guard (bits n : Z) : bool :=
  if n <? 0 then (bits =? 0) && (-1074 <=? n)
  else uint64_to_double bits <? 2 ^ n.

Record exhaustive_state : Type := mkExhaustive {
  e_armors : ArmorVector;
  e_cost : Q;
  e_defense : Q;
  best_defense : Q;
  bestVector : ArmorVector;
  candidates : ArmorVector;
  flag : bool
}.

(** One iteration of the loop over [bits]. *)
Definition exhaustive_body (total_cost : Q) (n bits : Z) (st : exhaustive_state)
    : exhaustive_state :=
  let cand := build_candidates (e_armors st) n bits in
  let cd := sum_armor_vector cand in
  let unchanged :=
    mkExhaustive (e_armors st) (fst cd) (snd cd) (best_defense st)
      (bestVector st) cand (flag st) in
  if Qle_bool (fst cd) total_cost then
    if negb (flag st) || Qgt_bool (snd cd) (best_defense st)
    then mkExhaustive (e_armors st) (fst cd) (snd cd) (snd cd) cand cand true
    else unchanged
  else unchanged.

(** The loop over [bits], a [uint64_t] counter. *)
Fixpoint exhaustive_loop (fuel : nat) (total_cost : Q) (n bits : Z)
    (st : exhaustive_state) : exhaustive_state :=
  match fuel with
  | O => st
  | S fuel' =>
      if loop_guard bits n
      then exhaustive_loop fuel' total_cost n ((bits + 1) mod 2 ^ 64)
             (exhaustive_body total_cost n bits st)
      else st
  end.

(** The guard fails at [bits = 2^n] at the latest
    ([exhaustive_run_fuel_enough] below), which bounds the number of
    iterations. *)
Definition exhaustive_fuel (n : Z) : nat := Z.to_nat (2 ^ Z.max n 0).

Definition exhaustive_run (armors : ArmorVector) (total_cost : Q)
    : option exhaustive_state :=
  let n := int_of_size (Z.of_nat (length armors)) in
  if n <? 64 then
    Some (exhaustive_loop (exhaustive_fuel n) total_cost n 0
            (mkExhaustive armors 0%Q 0%Q 0%Q [] [] false))
  else None.

Definition exhaustive_max_defense (armors : ArmorVector) (total_cost : Q)
    : option ArmorVector :=
  option_map bestVector (exhaustive_run armors total_cost).

(** ** Vocabulary of the statements *)

(** The sum of one field over a vector, accumulated from the left as
    [sum_armor_vector] does. *)
Definition sumQ (f : ArmorItem -> Q) (v : ArmorVector) : Q :=
  fold_left (fun acc a => (acc + f a)%Q) v 0%Q.

(** The test of [filter_armor_vector]. *)
Definition qualifies (min_defense max_defense : Q) (a : ArmorItem) : bool :=
  Qle_bool min_defense (defense a) && Qle_bool (defense a) max_defense.

(** The ranking key of the greedy scan, [armor_value] in the source. *)
Definition efficiency (a : ArmorItem) : Q := (defense a / cost a)%Q.

(** An item fits when the accumulated cost plus its cost is within budget. *)
Definition fits (result_cost total_cost : Q) (a : ArmorItem) : Prop :=
  (result_cost + cost a <= total_cost)%Q.

(** What a round of the greedy scan can take: an item that fits and whose
    efficiency is above the initial [max_armor_value] of 0. *)
Definition selectable (result_cost total_cost : Q) (a : ArmorItem) : Prop :=
  fits result_cost total_cost a /\ (0 < efficiency a)%Q.

(** The items of [v] at the positions, counted from [j], whose bit is set in
    [bits]. *)
Fixpoint select_from (j : nat) (v : ArmorVector) (bits : Z) : ArmorVector :=
  match v with
  | [] => []
  | a :: rest =>
      if Z.testbit bits (Z.of_nat j)
      then a :: select_from (S j) rest bits
      else select_from (S j) rest bits
  end.

(** What the scan knows after the items [seen]: either nothing selectable
    was met and the locals are untouched, or the locals hold the first item
    of greatest efficiency among those that fit. *)
Definition scan_inv (result_cost total_cost : Q) (seen : ArmorVector)
    (s : scan_state) : Prop :=
  (max_armor_index s = size_of_int (-1)
   /\ max_armor_value s = 0%Q
   /\ forall a, a ∈ seen -> ~ selectable result_cost total_cost a)
  \/ (exists k : nat,
        max_armor_index s = Z.of_nat k
        /\ seen !! k = Some (max_armor s)
        /\ max_armor_value s = efficiency (max_armor s)
        /\ selectable result_cost total_cost (max_armor s)
        /\ (forall j a, seen !! j = Some a -> fits result_cost total_cost a ->
              (efficiency a <= efficiency (max_armor s))%Q)
        /\ (forall j a, (j < k)%nat -> seen !! j = Some a ->
              fits result_cost total_cost a ->
              (efficiency a < efficiency (max_armor s))%Q)).

(** The invariant of the [while] loop of [greedy_max_defense]. *)
Definition greedy_inv (armors : ArmorVector) (total_cost : Q) (st : greedy_state)
    : Prop :=
  g_armors st = armors
  /\ result st ++ todo st ≡ₚ armors
  /\ result_cost st = total_cost_of (result st)
  /\ (result st = [] \/ (total_cost_of (result st) <= total_cost)%Q).

(** A candidate is feasible when its cost is within the budget. *)
Definition feasible (total_cost : Q) (v : ArmorVector) : Prop :=
  (total_cost_of v <= total_cost)%Q.

(** The invariant of the loop over [bits] of [exhaustive_max_defense], when
    the masks below [done] have been tried: either none was feasible and
    nothing was stored, or the stored vector is the candidate of the first
    mask of greatest defense among the feasible ones. *)
Definition exhaustive_inv (armors : ArmorVector) (total_cost : Q) (n done : Z)
    (st : exhaustive_state) : Prop :=
  e_armors st = armors
  /\ (flag st = false ->
        bestVector st = []
        /\ forall m, 0 <= m < done -> ~ feasible total_cost (build_candidates armors n m))
  /\ (flag st = true ->
        exists m,
          0 <= m < done
          /\ bestVector st = build_candidates armors n m
          /\ best_defense st = total_defense_of (build_candidates armors n m)
          /\ feasible total_cost (build_candidates armors n m)
          /\ (forall m', 0 <= m' < done ->
                feasible total_cost (build_candidates armors n m') ->
                (total_defense_of (build_candidates armors n m')
                 <= total_defense_of (build_candidates armors n m))%Q)
          /\ (forall m', 0 <= m' < m ->
                feasible total_cost (build_candidates armors n m') ->
                (total_defense_of (build_candidates armors n m')
                 < total_defense_of (build_candidates armors n m))%Q)).

(** [k] copies of an item of cost 1 and defense 1. *)
Definition unit_armor : ArmorItem := mkArmorItem "shield" 1 1.
Definition unit_armors (k : nat) : ArmorVector := repeat unit_armor k.

(** A well-formed item of defense 0. *)
Definition plain_armor : ArmorItem := mkArmorItem "cloth" 1 0.

(** The scenario of the specification: A, B and C for a budget of 50. *)
Definition scenario : ArmorVector :=
  [mkArmorItem "A" 10 60; mkArmorItem "B" 20 100; mkArmorItem "C" 30 120].

(** ** The constructor of ArmorItem *)

(** [new ArmorItem(description, cost_gold, defense_points)]: [None] when one
    of the two assertions of the constructor fails. *)
Definition new_ArmorItem (description : string) (cost_gold defense_points : Q)
    : option ArmorItem :=
  if negb (String.eqb description EmptyString) && Qgt_bool cost_gold 0
  then Some (mkArmorItem description cost_gold defense_points)
  else None.

(** ** load_armor_database *)

(** The characters of a stream up to the delimiter, and what is left after
    the delimiter (nothing when the end of the stream came first). *)
Fixpoint read_field (delim : ascii) (stream : string) : string * string :=
  match stream with
  | EmptyString => (EmptyString, EmptyString)
  | String c stream' =>
      if Ascii.eqb c delim then (EmptyString, stream')
      else let fr := read_field delim stream' in (String c (fst fr), snd fr)
  end.

(** [std::getline(stream, field, delim)] on the characters left in a stream:
    the extraction fails ([None]) when no character is left; otherwise it
    gives the field and the rest of the stream, the delimiter being consumed. *)
Definition getline (delim : ascii) (stream : string) : option (string * string) :=
  match stream with
  | EmptyString => None
  | String _ _ => Some (read_field delim stream)
  end.

(** The loop [for (std::string field; std::getline(ss, field, delim); )] with
    the body [fields.push_back(field)].  Every successful extraction consumes
    a character, so the length of the stream bounds the number of rounds. *)
Fixpoint getline_loop (fuel : nat) (delim : ascii) (stream : string)
    (fields : list string) : list string :=
  match fuel with
  | O => fields
  | S fuel' =>
      match getline delim stream with
      | None => fields
      | Some (field, rest) => getline_loop fuel' delim rest (push_back fields field)
      end
  end.

Definition getline_all (delim : ascii) (stream : string) : list string :=
  getline_loop (String.length stream) delim stream [].

(** What [load_armor_database] gives: the vector, the null pointer, or no
    return at all when an assertion of the constructor fails. *)
Inductive load_result : Type :=
  | Loaded (armors : ArmorVector)
  | LoadFailure
  | LoadAbort.

Section Load.
(** The extraction [ss >> output] of a [double] from the text of a field,
    with the value it stores when the text is no number; a text from which
    the extraction stores nothing (an empty or blank field) is the matter of
    [IEEE.parse_dbl]. *)
Variable read_double : string -> Q.

(** The lambda [parse_dbl]: the stream of a string is always good, so the
    result is always [true]. *)
Definition parse_dbl (field : string) : bool * Q := (true, read_double field).

(** The loop over the lines of the file; [line_number] is a [size_t]. *)
Fixpoint load_lines (lines : list string) (line_number : Z) (result : ArmorVector)
    : load_result :=
  match lines with
  | [] => Loaded result
  | line :: rest =>
      let line_number := (line_number + 1) mod 2 ^ 64 in
      if line_number =? 1 then load_lines rest line_number result
      else
        match getline_all "^"%char line with
        | [descr_field; cost_gold_field; defense_points_field] =>
            let c := parse_dbl cost_gold_field in
            let d := parse_dbl defense_points_field in
            if fst c && fst d then
              match new_ArmorItem descr_field (snd c) (snd d) with
              | Some armor => load_lines rest line_number (push_back result armor)
              | None => LoadAbort
              end
            else load_lines rest line_number result
        | _ => LoadFailure
        end
  end.

(** [file] is the content of the file at [path], [None] when it cannot be
    opened. *)
Definition load_armor_database (file : option string) : load_result :=
  match file with
  | None => LoadFailure
  | Some content => load_lines (getline_all "010"%char content) 0 []
  end.

End Load.

(** ** Vocabulary of the further statements *)

(** The fields written one after the other with the delimiter between
    them. *)
Fixpoint join_fields (delim : ascii) (fields : list string) : string :=
  match fields with
  | [] => EmptyString
  | [field] => field
  | field :: rest => (field ++ String delim (join_fields delim rest))%string
  end.

(** The delimiter does not occur in the text. *)
Fixpoint delimiter_free (delim : ascii) (text : string) : Prop :=
  match text with
  | EmptyString => True
  | String c text' => c <> delim /\ delimiter_free delim text'
  end.

(** A reader of unsigned decimal integers, for concrete files. *)
Fixpoint read_digits (acc : Z) (text : string) : Z :=
  match text with
  | EmptyString => acc
  | String c text' =>
      let d := Z.of_nat (nat_of_ascii c) - 48 in
      if (0 <=? d) && (d <=? 9) then read_digits (10 * acc + d) text' else acc
  end.

Definition read_unsigned (text : string) : Q := inject_Z (read_digits 0 text).

(** A database of a header and two records. *)
Definition sample_file : string :=
  "name^gold^defense
helmet^10^60
shield^20^100".

(** * The functions on IEEE 754 doubles *)

(** The definitions above add, divide and compare the [double] values as
    exact rationals, which is what the code computes as long as no sum and no
    quotient is rounded.  The module below is the same code on binary64
    floating-point numbers, with every sum and quotient rounded to nearest,
    ties to even, and the comparisons of IEEE 754 (false on a NaN), as the
    code runs where [double] expressions are evaluated in binary64 (SSE2 on
    x86-64, AArch64); the statements that depend on a computed sum or
    quotient are made about it. *)
Module IEEE.

Record ArmorItem : Type := mkArmorItem {
  description : string;
  cost : float;
  defense : float
}.

Abbreviation ArmorVector := (list ArmorItem).

(** The two assertions of the constructor. *)
Definition ArmorItem_ok (a : ArmorItem) : Prop :=
  description a <> EmptyString /\ (0 <? cost a)%float = true.

(** [new ArmorItem(description, cost_gold, defense_points)]: [None] when one
    of the two assertions fails. *)
Definition new_ArmorItem (description : string) (cost_gold defense_points : float)
    : option ArmorItem :=
  if negb (String.eqb description EmptyString) && (0 <? cost_gold)%float
  then Some (mkArmorItem description cost_gold defense_points)
  else None.

(** ** sum_armor_vector *)

Definition sum_armor_vector (armors : ArmorVector) : float * float :=
  fold_left
    (fun acc armor => ((fst acc + cost armor)%float, (snd acc + defense armor)%float))
    armors (0%float, 0%float).

Definition total_cost_of (armors : ArmorVector) : float := fst (sum_armor_vector armors).
Definition total_defense_of (armors : ArmorVector) : float := snd (sum_armor_vector armors).

(** ** filter_armor_vector *)

Definition qualifies (min_defense max_defense : float) (a : ArmorItem) : bool :=
  (min_defense <=? defense a)%float && (defense a <=? max_defense)%float.

Fixpoint filter_loop (source : ArmorVector) (min_defense max_defense : float)
    (total_size : Z) (filtered : ArmorVector) : ArmorVector :=
  match source with
  | [] => filtered
  | armor :: rest =>
      if (min_defense <=? defense armor)%float && (defense armor <=? max_defense)%float
      then
        let filtered' := push_back filtered armor in
        if size_of_int total_size <=? Z.of_nat (length filtered')
        then filtered'
        else filter_loop rest min_defense max_defense total_size filtered'
      else filter_loop rest min_defense max_defense total_size filtered
  end.

Definition filter_armor_vector (source : ArmorVector) (min_defense max_defense : float)
    (total_size : Z) : ArmorVector :=
  filter_loop source min_defense max_defense total_size [].

(** ** greedy_max_defense *)

Record scan_state : Type := mkScan {
  max_armor_index : Z;
  max_armor : ArmorItem;
  max_armor_value : float
}.

(** The [for] loop over [i]; [armor_value > max_armor_value] is the
    comparison [max_armor_value < armor_value]. *)
Fixpoint scan (pool : ArmorVector) (i : Z) (result_cost total_cost : float)
    (s : scan_state) : scan_state :=
  match pool with
  | [] => s
  | armor :: rest =>
      let s' :=
        if (result_cost + cost armor <=? total_cost)%float then
          let armor_value := (defense armor / cost armor)%float in
          if (max_armor_value s <? armor_value)%float
          then mkScan i armor armor_value
          else s
        else s in
      scan rest (i + 1) result_cost total_cost s'
  end.

Record greedy_state : Type := mkGreedy {
  g_armors : ArmorVector;
  todo : ArmorVector;
  result : ArmorVector;
  result_cost : float
}.

Definition greedy_round (total_cost : float) (st : greedy_state) : option greedy_state :=
  match todo st with
  | [] => None
  | first :: _ =>
      let s := scan (todo st) 0 (result_cost st) total_cost
                 (mkScan (size_of_int (-1)) first 0%float) in
      if max_armor_index s =? size_of_int (-1) then None
      else
        Some (mkGreedy (g_armors st)
                (erase (todo st) (Z.to_nat (max_armor_index s)))
                (push_back (result st) (max_armor s))
                (result_cost st + cost (max_armor s))%float)
  end.

Fixpoint greedy_loop (fuel : nat) (total_cost : float) (st : greedy_state)
    : greedy_state :=
  match fuel with
  | O => st
  | S fuel' =>
      match greedy_round total_cost st with
      | None => st
      | Some st' => greedy_loop fuel' total_cost st'
      end
  end.

Definition greedy_run (armors : ArmorVector) (total_cost : float) : greedy_state :=
  greedy_loop (length armors) total_cost (mkGreedy armors armors [] 0%float).

Definition greedy_max_defense (armors : ArmorVector) (total_cost : float) : ArmorVector :=
  result (greedy_run armors total_cost).

(** ** exhaustive_max_defense *)

Definition inner_step (armors : ArmorVector) (bits : Z) (candidates : ArmorVector)
    (j : nat) : ArmorVector :=
  if Z.land (Z.shiftr bits (Z.of_nat j)) 1 =? 1 then
    match armors !! j with
    | Some a => push_back candidates a
    | None => candidates
    end
  else candidates.

Definition build_candidates (armors : ArmorVector) (n bits : Z) : ArmorVector :=
  fold_left (inner_step armors bits) (seq 0 (Z.to_nat n)) [].

Record exhaustive_state : Type := mkExhaustive {
  e_armors : ArmorVector;
  e_cost : float;
  e_defense : float;
  best_defense : float;
  bestVector : ArmorVector;
  candidates : ArmorVector;
  flag : bool
}.

(** One iteration of the loop over [bits]; [defense > best_defense] is the
    comparison [best_defense < defense]. *)
Definition exhaustive_body (total_cost : float) (n bits : Z) (st : exhaustive_state)
    : exhaustive_state :=
  let cand := build_candidates (e_armors st) n bits in
  let cd := sum_armor_vector cand in
  let unchanged :=
    mkExhaustive (e_armors st) (fst cd) (snd cd) (best_defense st)
      (bestVector st) cand (flag st) in
  if (fst cd <=? total_cost)%float then
    if negb (flag st) || (best_defense st <? snd cd)%float
    then mkExhaustive (e_armors st) (fst cd) (snd cd) (snd cd) cand cand true
    else unchanged
  else unchanged.

Fixpoint exhaustive_loop (fuel : nat) (total_cost : float) (n bits : Z)
    (st : exhaustive_state) : exhaustive_state :=
  match fuel with
  | O => st
  | S fuel' =>
      if loop_guard bits n
      then exhaustive_loop fuel' total_cost n ((bits + 1) mod 2 ^ 64)
             (exhaustive_body total_cost n bits st)
      else st
  end.

Definition exhaustive_run (armors : ArmorVector) (total_cost : float)
    : option exhaustive_state :=
  let n := int_of_size (Z.of_nat (length armors)) in
  if n <? 64 then
    Some (exhaustive_loop (exhaustive_fuel n) total_cost n 0
            (mkExhaustive armors 0%float 0%float 0%float [] [] false))
  else None.

Definition exhaustive_max_defense (armors : ArmorVector) (total_cost : float)
    : option ArmorVector :=
  option_map bestVector (exhaustive_run armors total_cost).

(** ** load_armor_database *)

(** What [load_armor_database] gives: the vector, the null pointer, no
    return when an assertion of the constructor fails, and no defined
    behaviour when a [double] that was never stored is read. *)
Inductive load_result : Type :=
  | Loaded (armors : ArmorVector)
  | LoadFailure
  | LoadAbort
  | LoadUndefined.

Section Load.
(** What the extraction [ss >> output] stores in [output] from the text of a
    field: [None] when it stores nothing (the text is empty or blank), the
    number read otherwise, which is 0 when the text does not start with a
    number. *)
Variable read_double : string -> option float.

(** The lambda [parse_dbl] applied to a field and to the current content of
    [output], [None] for a [double] that was declared and never stored: the
    result is always [true], and [output] is written only when the extraction
    stores a value. *)
Definition parse_dbl (field : string) (output : option float) : bool * option float :=
  (true, match read_double field with
         | Some value => Some value
         | None => output
         end).

(** The loop over the lines of the file; [line_number] is a [size_t], and
    [cost_gold] and [defense_points] are declared in the body without an
    initial value. *)
Fixpoint load_lines (lines : list string) (line_number : Z) (result : ArmorVector)
    : load_result :=
  match lines with
  | [] => Loaded result
  | line :: rest =>
      let line_number := (line_number + 1) mod 2 ^ 64 in
      if line_number =? 1 then load_lines rest line_number result
      else
        match getline_all "^"%char line with
        | [descr_field; cost_gold_field; defense_points_field] =>
            let c := parse_dbl cost_gold_field None in
            let d := parse_dbl defense_points_field None in
            if fst c && fst d then
              match snd c, snd d with
              | Some cost_gold, Some defense_points =>
                  match new_ArmorItem descr_field cost_gold defense_points with
                  | Some armor => load_lines rest line_number (push_back result armor)
                  | None => LoadAbort
                  end
              | _, _ => LoadUndefined
              end
            else load_lines rest line_number result
        | _ => LoadFailure
        end
  end.

Definition load_armor_database (file : option string) : load_result :=
  match file with
  | None => LoadFailure
  | Some content => load_lines (getline_all "010"%char content) 0 []
  end.

(** ** main *)

(** The vector [soln_exhaustive] when [main] returns; [None] when the
    process does not get there. *)
Definition main (file : option string) : option ArmorVector :=
  match load_armor_database file with
  | Loaded all_armors =>
      exhaustive_max_defense (filter_armor_vector all_armors 1 2500 6) 500
  | _ => None
  end.
End Load.

(** ** Vocabulary of the statements on doubles *)

(** The ranking key of the greedy scan, the rounded quotient. *)
Definition efficiency (a : ArmorItem) : float := (defense a / cost a)%float.

(** An item fits when the rounded sum of the accumulated cost and of its
    cost is within the budget. *)
Definition fits (result_cost total_cost : float) (a : ArmorItem) : Prop :=
  (result_cost + cost a <=? total_cost)%float = true.

(** What a round of the greedy scan can take. *)
Definition selectable (result_cost total_cost : float) (a : ArmorItem) : Prop :=
  fits result_cost total_cost a /\ (0 <? efficiency a)%float = true.

(** A vector is feasible when the cost that [sum_armor_vector] computes for
    it is within the budget. *)
Definition feasible (total_cost : float) (v : ArmorVector) : Prop :=
  (total_cost_of v <=? total_cost)%float = true.

Fixpoint select_from (j : nat) (v : ArmorVector) (bits : Z) : ArmorVector :=
  match v with
  | [] => []
  | a :: rest =>
      if Z.testbit bits (Z.of_nat j)
      then a :: select_from (S j) rest bits
      else select_from (S j) rest bits
  end.

(** What the scan knows after the items [seen]. *)
Definition scan_inv (result_cost total_cost : float) (seen : ArmorVector)
    (s : scan_state) : Prop :=
  (max_armor_index s = size_of_int (-1)
   /\ max_armor_value s = 0%float
   /\ forall a, a ∈ seen -> ~ selectable result_cost total_cost a)
  \/ (exists k : nat,
        max_armor_index s = Z.of_nat k
        /\ seen !! k = Some (max_armor s)
        /\ max_armor_value s = efficiency (max_armor s)
        /\ selectable result_cost total_cost (max_armor s)
        /\ (forall j a, seen !! j = Some a -> fits result_cost total_cost a ->
              (efficiency (max_armor s) <? efficiency a)%float = false)
        /\ (forall j a, (j < k)%nat -> seen !! j = Some a ->
              fits result_cost total_cost a ->
              (efficiency (max_armor s) <=? efficiency a)%float = false)).

(** The invariant of the [while] loop of [greedy_max_defense]. *)
Definition greedy_inv (armors : ArmorVector) (total_cost : float) (st : greedy_state)
    : Prop :=
  g_armors st = armors
  /\ (length (todo st) <= length armors)%nat
  /\ result_cost st = total_cost_of (result st)
  /\ (result st = [] \/ feasible total_cost (result st)).

(** The invariant of the loop over [bits] when the masks below [done] have
    been tried. *)
Definition exhaustive_inv (armors : ArmorVector) (total_cost : float) (n done : Z)
    (st : exhaustive_state) : Prop :=
  e_armors st = armors
  /\ (flag st = false ->
        bestVector st = []
        /\ forall m, 0 <= m < done -> ~ feasible total_cost (build_candidates armors n m))
  /\ (flag st = true ->
        exists m,
          0 <= m < done
          /\ bestVector st = build_candidates armors n m
          /\ best_defense st = total_defense_of (build_candidates armors n m)
          /\ feasible total_cost (build_candidates armors n m)
          /\ (forall m', 0 <= m' < done ->
                feasible total_cost (build_candidates armors n m') ->
                (total_defense_of (build_candidates armors n m)
                 <? total_defense_of (build_candidates armors n m'))%float = false)
          /\ (forall m', 0 <= m' < m ->
                feasible total_cost (build_candidates armors n m') ->
                (total_defense_of (build_candidates armors n m)
                 <=? total_defense_of (build_candidates armors n m'))%float = false)).

(** A line holds the record of an item. *)
Definition record_of (read_double : string -> option float) (line : string)
    (a : ArmorItem) : Prop :=
  exists cost_field defense_field : string,
    getline_all "^"%char line = [description a; cost_field; defense_field]
    /\ read_double cost_field = Some (cost a)
    /\ read_double defense_field = Some (defense a)
    /\ ArmorItem_ok a.

(** The exact value of a finite double. *)
Definition exact (x : float) : Q :=
  match Prim2SF x with
  | S754_finite s m e =>
      let v := if s then Z.neg m else Z.pos m in
      if 0 <=? e then inject_Z (v * 2 ^ e) else Qmake v (2 ^ Z.to_pos (- e))
  | _ => 0%Q
  end.

(** The exact sum of the costs of a vector. *)
Definition exact_cost_of (v : ArmorVector) : Q :=
  fold_right (fun a total => (exact (cost a) + total)%Q) 0%Q v.

(** A reader of unsigned decimal integers below 2^53, for concrete files:
    blank text stores nothing. *)
Definition read_unsigned (text : string) : option float :=
  match text with
  | EmptyString => None
  | String c _ =>
      if Ascii.eqb c " "%char then None
      else Some (PrimFloat.of_uint63 (Uint63.of_Z (read_digits 0 text)))
  end.

(** Items for concrete inputs. *)
Definition scenario : ArmorVector :=
  [mkArmorItem "A" 10 60; mkArmorItem "B" 20 100; mkArmorItem "C" 30 120].
Definition plain_armor : ArmorItem := mkArmorItem "cloth" 1 0.
Definition unit_armor : ArmorItem := mkArmorItem "shield" 1 1.
Definition heavy_armor : ArmorItem := mkArmorItem "anvil" 0x1p+53 1.
Definition faint_armor : ArmorItem := mkArmorItem "mist" 0x1p+600 0x1p-600.
Definition ring_B : ArmorItem := mkArmorItem "B" 0x1.8p+54 0x1.fffffffffffffp+52.
Definition ring_A : ArmorItem := mkArmorItem "A" 3 1.

End IEEE.

(** * Properties *)

(** ** Conversions *)

Lemma int_of_size_small (z : Z) : 0 <= z < 2 ^ 31 -> int_of_size z = z.
Proof.
  intros Hz. unfold int_of_size.
  rewrite Z.mod_small; lia.
Qed.

Lemma size_of_int_nonneg (i : Z) : 0 <= i < 2 ^ 64 -> size_of_int i = i.
Proof. intros Hi. unfold size_of_int. now rewrite Z.mod_small. Qed.

Lemma size_of_int_neg (i : Z) : - 2 ^ 64 <= i < 0 -> size_of_int i = 2 ^ 64 + i.
Proof.
  intros Hi. unfold size_of_int.
  symmetry. apply (Z.mod_unique_pos i (2 ^ 64) (-1)); lia.
Qed.

Lemma uint64_to_double_exact (b : Z) : b < 2 ^ 53 -> uint64_to_double b = b.
Proof.
  intros Hb. unfold uint64_to_double.
  destruct (Z.ltb_spec b (2 ^ 53)); [reflexivity | lia].
Qed.

(** The conversion yields a double: a significand [q'] of at most 53 bits
    (or the next power of two) scaled by [2^k]; it is a nearest one, and the
    even one on a tie. *)
Lemma uint64_to_double_nearest (b : Z) :
  2 ^ 53 <= b ->
  exists q' : Z,
    uint64_to_double b = q' * 2 ^ (Z.log2 b - 52)
    /\ 2 ^ 52 <= q' <= 2 ^ 53
    /\ 2 * Z.abs (q' * 2 ^ (Z.log2 b - 52) - b) <= 2 ^ (Z.log2 b - 52)
    /\ (2 * Z.abs (q' * 2 ^ (Z.log2 b - 52) - b) = 2 ^ (Z.log2 b - 52) ->
        Z.even q' = true).
Proof.
  intros Hb. unfold uint64_to_double.
  destruct (Z.ltb_spec b (2 ^ 53)) as [Hlt|_]; [lia|].
  assert (Hlog : 53 <= Z.log2 b) by (apply Z.log2_le_pow2; lia).
  set (k := Z.log2 b - 52). cbv zeta.
  assert (Hk : 1 <= k) by (unfold k; lia).
  rewrite Z.shiftr_div_pow2, Z.land_ones, Z.shiftl_mul_pow2 by lia.
  assert (Hpow : 2 ^ k = 2 * 2 ^ (k - 1)).
  { rewrite <- Z.pow_succ_r by lia. f_equal. lia. }
  assert (Hhalf : 0 < 2 ^ (k - 1)) by (apply Z.pow_pos_nonneg; lia).
  pose proof (Z.div_mod b (2 ^ k) ltac:(lia)) as Hdiv.
  pose proof (Z.mod_pos_bound b (2 ^ k) ltac:(lia)) as Hmod.
  destruct (Z.log2_spec b ltac:(lia)) as [Hlo Hhi].
  assert (Hsplit : 2 ^ Z.log2 b = 2 ^ 52 * 2 ^ k).
  { rewrite <- Z.pow_add_r by lia. f_equal. unfold k. lia. }
  assert (Hsplit' : 2 ^ Z.succ (Z.log2 b) = 2 ^ 53 * 2 ^ k).
  { rewrite <- Z.pow_add_r by lia. f_equal. unfold k. lia. }
  assert (Hq : 2 ^ 52 <= b / 2 ^ k < 2 ^ 53).
  { split.
    - apply Z.div_le_lower_bound; lia.
    - apply Z.div_lt_upper_bound; lia. }
  set (q := b / 2 ^ k) in *. set (r := b mod 2 ^ k) in *.
  set (P := 2 ^ k) in *. set (h := 2 ^ (k - 1)) in *.
  clearbody q r P h.
  destruct (Z.ltb_spec h r) as [Hgt|Hle]; cbn [orb andb].
  - exists (q + 1). split; [reflexivity|]. split; [lia|]. split; [lia|]. lia.
  - destruct (Z.eqb_spec r h) as [Heq|Hne]; cbn [orb andb].
    + destruct (Z.odd q) eqn:Hodd.
      * exists (q + 1). split; [reflexivity|]. split; [lia|]. split; [lia|].
        intros _. rewrite Z.even_add, <- Z.negb_odd, Hodd. reflexivity.
      * exists q. split; [reflexivity|]. split; [lia|]. split; [lia|].
        intros _. rewrite <- Z.negb_odd, Hodd. reflexivity.
    + exists q. split; [reflexivity|]. split; [lia|]. split; [lia|]. lia.
Qed.

Lemma uint64_to_double_examples :
  uint64_to_double (2 ^ 53 + 1) = 2 ^ 53
  /\ uint64_to_double (2 ^ 53 + 2) = 2 ^ 53 + 2
  /\ uint64_to_double (2 ^ 53 + 3) = 2 ^ 53 + 4
  /\ uint64_to_double (2 ^ 54 - 2) = 2 ^ 54 - 2
  /\ uint64_to_double (2 ^ 54 - 1) = 2 ^ 54.
Proof. repeat split; vm_compute; reflexivity. Qed.

Lemma Qgt_bool_iff (x y : Q) : Qgt_bool x y = true <-> (y < x)%Q.
Proof.
  unfold Qgt_bool. rewrite negb_true_iff, <- not_true_iff_false, Qle_bool_iff.
  split; [apply Qnot_le_lt | apply Qlt_not_le].
Qed.

Lemma Qgt_bool_false_iff (x y : Q) : Qgt_bool x y = false <-> (x <= y)%Q.
Proof.
  unfold Qgt_bool. rewrite negb_false_iff. apply Qle_bool_iff.
Qed.

Lemma Qle_bool_false_iff (x y : Q) : Qle_bool x y = false <-> (y < x)%Q.
Proof.
  rewrite <- not_true_iff_false, Qle_bool_iff.
  split; [apply Qnot_le_lt | apply Qlt_not_le].
Qed.

(** ** Sums *)

Lemma sum_armor_vector_acc (v : ArmorVector) (c d : Q) :
  fold_left
    (fun acc armor => ((fst acc + cost armor)%Q, (snd acc + defense armor)%Q))
    v (c, d)
  = (fold_left (fun acc a => (acc + cost a)%Q) v c,
     fold_left (fun acc a => (acc + defense a)%Q) v d).
Proof.
  revert c d. induction v as [|a v IH]; intros c d; simpl; [reflexivity|].
  apply IH.
Qed.

Lemma total_cost_of_sumQ (v : ArmorVector) : total_cost_of v = sumQ cost v.
Proof.
  unfold total_cost_of, sum_armor_vector, sumQ.
  now rewrite sum_armor_vector_acc.
Qed.

Lemma total_defense_of_sumQ (v : ArmorVector) : total_defense_of v = sumQ defense v.
Proof.
  unfold total_defense_of, sum_armor_vector, sumQ.
  now rewrite sum_armor_vector_acc.
Qed.

Section SumQ.
Variable f : ArmorItem -> Q.


Lemma sumQ_push_back (v : ArmorVector) (a : ArmorItem) :
  sumQ f (push_back v a) = (sumQ f v + f a)%Q.
Proof. unfold sumQ, push_back. now rewrite fold_left_app. Qed.

Lemma sumQ_acc (v : ArmorVector) (c : Q) :
  (fold_left (fun acc a => acc + f a) v c == c + sumQ f v)%Q.
Proof.
  unfold sumQ. revert c. induction v as [|a v IH]; intros c; simpl.
  - lra.
  - rewrite IH, (IH (0 + f a)%Q). lra.
Qed.

Lemma sumQ_cons (a : ArmorItem) (v : ArmorVector) :
  (sumQ f (a :: v) == f a + sumQ f v)%Q.
Proof. unfold sumQ at 1. simpl. rewrite sumQ_acc. lra. Qed.

End SumQ.

(** ** filter_armor_vector *)

(** The loop pushes the qualifying items in source order and stops after the
    push that brings the size up to the converted limit: at least one push
    happens whenever an item qualifies. *)
Lemma filter_loop_spec (source : ArmorVector) (lo hi : Q) (total_size : Z) :
  forall filtered : ArmorVector,
    filter_loop source lo hi total_size filtered
    = filtered ++
      take (Nat.max 1 (Z.to_nat (size_of_int total_size - Z.of_nat (length filtered))))
           (List.filter (qualifies lo hi) source).
Proof.
  induction source as [|a source IH]; intros filtered; simpl.
  - now rewrite take_nil, app_nil_r.
  - unfold qualifies at 1.
    destruct (Qle_bool lo (defense a) && Qle_bool (defense a) hi); simpl.
    + unfold push_back. rewrite length_app. simpl.
      destruct (Z.leb_spec (size_of_int total_size) (Z.of_nat (length filtered + 1))) as [Hle|Hgt].
      * replace (Nat.max 1 (Z.to_nat (size_of_int total_size - Z.of_nat (length filtered))))
          with 1%nat by lia.
        reflexivity.
      * rewrite IH, length_app. simpl.
        replace (Nat.max 1 (Z.to_nat (size_of_int total_size - Z.of_nat (length filtered))))
          with (S (Nat.max 1 (Z.to_nat (size_of_int total_size
                                          - Z.of_nat (length filtered + 1))))) by lia.
        simpl. now rewrite <- app_assoc.
    + apply IH.
Qed.

(** For a positive limit the result is the first [total_size] qualifying
    items, in source order. *)
Lemma filter_armor_vector_positive (source : ArmorVector) (lo hi : Q) (total_size : Z) :
  0 < total_size < 2 ^ 31 ->
  filter_armor_vector source lo hi total_size
  = take (Z.to_nat total_size) (List.filter (qualifies lo hi) source).
Proof.
  intros Hts. unfold filter_armor_vector. rewrite filter_loop_spec. simpl.
  rewrite size_of_int_nonneg by lia.
  f_equal. lia.
Qed.

(** With the limit 0 the first qualifying item is still pushed. *)
Lemma filter_armor_vector_zero (source : ArmorVector) (lo hi : Q) :
  filter_armor_vector source lo hi 0
  = take 1 (List.filter (qualifies lo hi) source).
Proof.
  unfold filter_armor_vector. now rewrite filter_loop_spec.
Qed.

(** A negative limit converts to a [size_t] above any vector size: every
    qualifying item is kept. *)
Lemma filter_armor_vector_negative (source : ArmorVector) (lo hi : Q) (total_size : Z) :
  - 2 ^ 31 <= total_size < 0 ->
  Z.of_nat (length source) < 2 ^ 63 ->
  filter_armor_vector source lo hi total_size
  = List.filter (qualifies lo hi) source.
Proof.
  intros Hts Hlen. unfold filter_armor_vector. rewrite filter_loop_spec. simpl.
  rewrite size_of_int_neg by lia.
  apply take_ge.
  pose proof (List.filter_length_le (qualifies lo hi) source) as Hf.
  lia.
Qed.

(** C3 (the code departs from the claim): with the limit 0 and one qualifying
    item the result is that item, not the empty vector; with the limit -1
    every qualifying item is returned. *)
Theorem filter_armor_vector_nonpositive_limit :
  filter_armor_vector [unit_armor] 0 10 0 = [unit_armor]
  /\ filter_armor_vector [unit_armor; unit_armor] 0 10 (-1) = [unit_armor; unit_armor].
Proof. split; reflexivity. Qed.

(** ** The scenario of the specification *)

(** Greedy takes A then B (defense 160); the exhaustive search returns B and
    C (defense 220). *)
Lemma scenario_results :
  greedy_max_defense scenario 50
  = [mkArmorItem "A" 10 60; mkArmorItem "B" 20 100]
  /\ exhaustive_max_defense scenario 50
     = Some [mkArmorItem "B" 20 100; mkArmorItem "C" 30 120].
Proof. split; vm_compute; reflexivity. Qed.

(** ** greedy_max_defense: the scan of one round *)

Section Scan.
Variables result_cost total_cost : Q.

Lemma scan_inv_step (seen : ArmorVector) (armor : ArmorItem) (s : scan_state) :
  scan_inv result_cost total_cost seen s ->
  scan_inv result_cost total_cost (seen ++ [armor])
    (if Qle_bool (result_cost + cost armor) total_cost then
       if Qgt_bool (defense armor / cost armor) (max_armor_value s)
       then mkScan (Z.of_nat (length seen)) armor (defense armor / cost armor)
       else s
     else s).
Proof.
  intros Hinv.
  destruct (Qle_bool (result_cost + cost armor) total_cost) eqn:Hfit.
  - apply Qle_bool_iff in Hfit.
    destruct (Qgt_bool (defense armor / cost armor) (max_armor_value s)) eqn:Hgt.
    + (* the item becomes the best so far *)
      apply Qgt_bool_iff in Hgt. right. exists (length seen). simpl.
      split; [reflexivity|].
      split; [now rewrite lookup_app_r, Nat.sub_diag by lia|].
      split; [reflexivity|].
      destruct Hinv as [(_ & Hval & Hnone) | (k & _ & Hk & Hval & Hsel & Hmax & _)].
      * rewrite Hval in Hgt.
        split; [split; assumption|].
        assert (Hold : forall j a, seen !! j = Some a -> fits result_cost total_cost a ->
                                   (efficiency a <= 0)%Q).
        { intros j a Hj Ha. apply Qnot_lt_le. intros Hpos.
          apply (Hnone a); [eapply list_elem_of_lookup_2; eassumption | split; assumption]. }
        split.
        -- intros j a Hj Ha. apply lookup_app_Some in Hj as [Hj | [_ Hj]].
           ++ apply Qlt_le_weak, Qle_lt_trans with 0%Q; [eapply Hold; eassumption | exact Hgt].
           ++ apply list_lookup_singleton_Some in Hj as [_ <-]. apply Qle_refl.
        -- intros j a Hlt Hj Ha. rewrite lookup_app_l in Hj by assumption.
           apply Qle_lt_trans with 0%Q; [eapply Hold; eassumption | exact Hgt].
      * rewrite Hval in Hgt.
        split; [split; [assumption | apply Qlt_trans with (efficiency (max_armor s)); [apply Hsel | exact Hgt]]|].
        split.
        -- intros j a Hj Ha. apply lookup_app_Some in Hj as [Hj | [_ Hj]].
           ++ apply Qlt_le_weak, Qle_lt_trans with (efficiency (max_armor s));
                [eapply Hmax; eassumption | exact Hgt].
           ++ apply list_lookup_singleton_Some in Hj as [_ <-]. apply Qle_refl.
        -- intros j a Hlt Hj Ha. rewrite lookup_app_l in Hj by assumption.
           apply Qle_lt_trans with (efficiency (max_armor s));
             [eapply Hmax; eassumption | exact Hgt].
    + (* the item fits but does not beat the best so far *)
      apply Qgt_bool_false_iff in Hgt.
      destruct Hinv as [(Hidx & Hval & Hnone) | (k & Hidx & Hk & Hval & Hsel & Hmax & Hfirst)].
      * left. repeat split; try assumption.
        intros a Ha [Hfa Hpos]. apply elem_of_app in Ha as [Ha | Ha].
        -- apply (Hnone a Ha). split; assumption.
        -- apply list_elem_of_singleton in Ha. subst a.
           rewrite Hval in Hgt. apply (Qlt_not_le _ _ Hpos Hgt).
      * right. exists k. repeat split; try assumption; try apply Hsel.
        -- apply lookup_app_l_Some. assumption.
        -- intros j a Hj Ha. apply lookup_app_Some in Hj as [Hj | [_ Hj]].
           ++ eapply Hmax; eassumption.
           ++ apply list_lookup_singleton_Some in Hj as [_ <-].
              rewrite Hval in Hgt. exact Hgt.
        -- intros j a Hlt Hj Ha.
           apply lookup_lt_Some in Hk.
           rewrite lookup_app_l in Hj by lia.
           eapply Hfirst; eassumption.
  - (* the item does not fit *)
    apply Qle_bool_false_iff in Hfit.
    assert (Hno : ~ fits result_cost total_cost armor)
      by (intros Hf; apply (Qlt_not_le _ _ Hfit Hf)).
    destruct Hinv as [(Hidx & Hval & Hnone) | (k & Hidx & Hk & Hval & Hsel & Hmax & Hfirst)].
    + left. repeat split; try assumption.
      intros a Ha [Hfa Hpos]. apply elem_of_app in Ha as [Ha | Ha].
      * apply (Hnone a Ha). split; assumption.
      * apply list_elem_of_singleton in Ha. subst a. exact (Hno Hfa).
    + right. exists k. repeat split; try assumption; try apply Hsel.
      * apply lookup_app_l_Some. assumption.
      * intros j a Hj Ha. apply lookup_app_Some in Hj as [Hj | [_ Hj]].
        -- eapply Hmax; eassumption.
        -- apply list_lookup_singleton_Some in Hj as [_ <-]. contradiction.
      * intros j a Hlt Hj Ha.
        apply lookup_lt_Some in Hk.
        rewrite lookup_app_l in Hj by lia.
        eapply Hfirst; eassumption.
Qed.
End Scan.

Lemma scan_spec (result_cost total_cost : Q) (pool : ArmorVector) :
  forall (seen : ArmorVector) (s : scan_state),
    scan_inv result_cost total_cost seen s ->
    scan_inv result_cost total_cost (seen ++ pool)
      (scan pool (Z.of_nat (length seen)) result_cost total_cost s).
Proof.
  induction pool as [|armor pool IH]; intros seen s Hinv; simpl.
  - now rewrite app_nil_r.
  - replace (Z.of_nat (length seen) + 1) with (Z.of_nat (length (seen ++ [armor])))
      by (rewrite length_app; simpl; lia).
    rewrite (cons_middle armor seen pool), app_assoc.
    apply IH, scan_inv_step, Hinv.
Qed.

Lemma scan_todo (result_cost total_cost : Q) (pool : ArmorVector) (first : ArmorItem) :
  scan_inv result_cost total_cost pool
    (scan pool 0 result_cost total_cost (mkScan (size_of_int (-1)) first 0%Q)).
Proof.
  apply (scan_spec result_cost total_cost pool []).
  left. simpl. repeat split.
  intros a Ha. apply elem_of_nil in Ha. contradiction.
Qed.

(** ** greedy_max_defense: one round *)

Lemma erase_delete {A : Type} (v : list A) (i : nat) : erase v i = delete i v.
Proof. unfold erase. symmetry. apply delete_take_drop. Qed.

(** A round that goes on took the first item of greatest efficiency among
    those that fit, and that item is selectable. *)
Lemma greedy_round_Some (total_cost : Q) (st st' : greedy_state) :
  greedy_round total_cost st = Some st' ->
  exists (k : nat) (a : ArmorItem),
    todo st !! k = Some a
    /\ selectable (result_cost st) total_cost a
    /\ (forall j a', todo st !! j = Some a' -> fits (result_cost st) total_cost a' ->
          (efficiency a' <= efficiency a)%Q)
    /\ (forall j a', (j < k)%nat -> todo st !! j = Some a' ->
          fits (result_cost st) total_cost a' -> (efficiency a' < efficiency a)%Q)
    /\ st' = mkGreedy (g_armors st) (erase (todo st) k) (push_back (result st) a)
               (result_cost st + cost a)%Q.
Proof.
  unfold greedy_round. destruct (todo st) as [|first rest] eqn:Htodo; [discriminate|].
  pose proof (scan_todo (result_cost st) total_cost (first :: rest) first) as Hinv.
  remember (scan (first :: rest) 0 (result_cost st) total_cost
              (mkScan (size_of_int (-1)) first 0%Q)) as s eqn:Hs.
  clear Hs. cbv zeta.
  destruct (Z.eqb_spec (max_armor_index s) (size_of_int (-1))) as [Heq|Hne];
    [discriminate|].
  intros Hst'. apply (inj Some) in Hst'. subst st'.
  destruct Hinv as [(Hidx & _) | (k & Hidx & Hk & _ & Hsel & Hmax & Hfirst)];
    [contradiction|].
  exists k, (max_armor s).
  split; [exact Hk|]. split; [exact Hsel|]. split; [exact Hmax|]. split; [exact Hfirst|].
  now rewrite Hidx, Nat2Z.id.
Qed.

(** A round ends the loop only when nothing selectable is left in [todo]. *)
Lemma greedy_round_None (total_cost : Q) (st : greedy_state) :
  Z.of_nat (length (todo st)) < 2 ^ 64 ->
  greedy_round total_cost st = None ->
  forall a, a ∈ todo st -> ~ selectable (result_cost st) total_cost a.
Proof.
  unfold greedy_round. intros Hlen.
  destruct (todo st) as [|first rest] eqn:Htodo.
  - intros _ a Ha. apply elem_of_nil in Ha. contradiction.
  - pose proof (scan_todo (result_cost st) total_cost (first :: rest) first) as Hinv.
    remember (scan (first :: rest) 0 (result_cost st) total_cost
                (mkScan (size_of_int (-1)) first 0%Q)) as s eqn:Hs.
    clear Hs. cbv zeta.
    destruct (Z.eqb_spec (max_armor_index s) (size_of_int (-1))) as [Heq|Hne];
      [|discriminate].
    intros _.
    destruct Hinv as [(_ & _ & Hnone) | (k & Hidx & Hk & _)]; [exact Hnone|].
    apply lookup_lt_Some in Hk. rewrite Hidx in Heq.
    change (size_of_int (-1)) with (2 ^ 64 - 1) in Heq. lia.
Qed.

(** Conversely, when something selectable is in [todo] the round goes on. *)
Lemma greedy_round_progress (total_cost : Q) (st : greedy_state) (a : ArmorItem) :
  Z.of_nat (length (todo st)) < 2 ^ 64 ->
  a ∈ todo st -> selectable (result_cost st) total_cost a ->
  exists st', greedy_round total_cost st = Some st'.
Proof.
  intros Hlen Ha Hsel.
  destruct (greedy_round total_cost st) as [st'|] eqn:Hround; [now exists st'|].
  exfalso. exact (greedy_round_None total_cost st Hlen Hround a Ha Hsel).
Qed.

(** ** greedy_max_defense: the loop *)

Lemma greedy_inv_init (armors : ArmorVector) (total_cost : Q) :
  greedy_inv armors total_cost (mkGreedy armors armors [] 0%Q).
Proof.
  unfold greedy_inv. simpl. repeat split; [reflexivity | now left].
Qed.

Lemma greedy_inv_round (armors : ArmorVector) (total_cost : Q) (st st' : greedy_state) :
  greedy_inv armors total_cost st ->
  greedy_round total_cost st = Some st' ->
  greedy_inv armors total_cost st'.
Proof.
  intros (Harm & Hperm & Hcost & Hfeas) Hround.
  apply greedy_round_Some in Hround as (k & a & Hk & [Hfit _] & _ & _ & ->).
  unfold greedy_inv. simpl. repeat split.
  - exact Harm.
  - rewrite <- Hperm, erase_delete. unfold push_back.
    rewrite <- app_assoc. simpl.
    apply Permutation_app_head. symmetry. apply delete_Permutation, Hk.
  - rewrite !total_cost_of_sumQ, sumQ_push_back, <- total_cost_of_sumQ. now rewrite Hcost.
  - right. rewrite total_cost_of_sumQ, sumQ_push_back, <- total_cost_of_sumQ, <- Hcost.
    exact Hfit.
Qed.

Lemma greedy_inv_loop (armors : ArmorVector) (total_cost : Q) (fuel : nat) :
  forall st, greedy_inv armors total_cost st ->
             greedy_inv armors total_cost (greedy_loop fuel total_cost st).
Proof.
  induction fuel as [|fuel IH]; intros st Hinv; simpl; [exact Hinv|].
  destruct (greedy_round total_cost st) as [st'|] eqn:Hround; [|exact Hinv].
  apply IH. eapply greedy_inv_round; eassumption.
Qed.

Lemma greedy_round_todo_length (total_cost : Q) (st st' : greedy_state) :
  greedy_round total_cost st = Some st' ->
  length (todo st) = S (length (todo st')).
Proof.
  intros Hround.
  apply greedy_round_Some in Hround as (k & a & Hk & _ & _ & _ & ->). simpl.
  rewrite erase_delete. 
  pose proof (delete_Permutation _ _ _ Hk) as Hperm.
  apply Permutation_length in Hperm. exact Hperm.
Qed.

(** The loop stops by itself within [length todo] rounds: more fuel changes
    nothing, and the final state is one in which a round ends the loop. *)
Lemma greedy_loop_fuel_enough (total_cost : Q) (fuel : nat) :
  forall (st : greedy_state) (extra : nat),
    (length (todo st) <= fuel)%nat ->
    greedy_loop (fuel + extra) total_cost st = greedy_loop fuel total_cost st.
Proof.
  induction fuel as [|fuel IH]; intros st extra Hlen.
  - destruct (todo st) as [|first rest] eqn:Htodo; [|simpl in Hlen; lia].
    destruct extra as [|extra]; simpl; [reflexivity|].
    unfold greedy_round. now rewrite Htodo.
  - simpl. destruct (greedy_round total_cost st) as [st'|] eqn:Hround; [|reflexivity].
    apply IH. apply greedy_round_todo_length in Hround. lia.
Qed.

Lemma greedy_loop_final (total_cost : Q) (fuel : nat) :
  forall st : greedy_state,
    (length (todo st) <= fuel)%nat ->
    greedy_round total_cost (greedy_loop fuel total_cost st) = None.
Proof.
  induction fuel as [|fuel IH]; intros st Hlen; simpl.
  - destruct (todo st) as [|first rest] eqn:Htodo; [|simpl in Hlen; lia].
    unfold greedy_round. now rewrite Htodo.
  - destruct (greedy_round total_cost st) as [st'|] eqn:Hround; [|exact Hround].
    apply IH. apply greedy_round_todo_length in Hround. lia.
Qed.

Lemma greedy_run_inv (armors : ArmorVector) (total_cost : Q) :
  greedy_inv armors total_cost (greedy_run armors total_cost).
Proof. apply greedy_inv_loop, greedy_inv_init. Qed.

Lemma greedy_max_defense_submseteq (armors : ArmorVector) (total_cost : Q) :
  greedy_max_defense armors total_cost ⊆+ armors.
Proof.
  destruct (greedy_run_inv armors total_cost) as (_ & Hperm & _).
  unfold greedy_max_defense.
  transitivity (result (greedy_run armors total_cost) ++ todo (greedy_run armors total_cost)).
  - apply submseteq_inserts_r. reflexivity.
  - apply Permutation_submseteq, Hperm.
Qed.

(** ** exhaustive_max_defense: the candidate of a mask *)

Lemma bit_test_testbit (bits : Z) (j : nat) :
  (Z.land (Z.shiftr bits (Z.of_nat j)) 1 =? 1) = Z.testbit bits (Z.of_nat j).
Proof.
  change 1 with (Z.ones 1) at 1.
  rewrite Z.land_ones by lia.
  change (2 ^ 1) with 2.
  rewrite <- Z.bit0_eqb, Z.shiftr_spec by lia.
  reflexivity.
Qed.

Lemma select_from_app (v w : ArmorVector) (bits : Z) :
  forall j : nat,
    select_from j (v ++ w) bits
    = select_from j v bits ++ select_from (j + length v) w bits.
Proof.
  induction v as [|a v IH]; intros j; simpl.
  - now rewrite Nat.add_0_r.
  - rewrite IH. replace (S j + length v)%nat with (j + S (length v))%nat by lia.
    now destruct (Z.testbit bits (Z.of_nat j)).
Qed.

Lemma select_from_sublist (v : ArmorVector) (bits : Z) :
  forall j : nat, select_from j v bits `sublist_of` v.
Proof.
  induction v as [|a v IH]; intros j; simpl.
  - constructor.
  - destruct (Z.testbit bits (Z.of_nat j)).
    + apply sublist_skip, IH.
    + apply sublist_cons, IH.
Qed.

(** The inner loop pushes, in index order, the items of the first [n]
    positions whose bit is set. *)
Lemma build_candidates_select (armors : ArmorVector) (n bits : Z) :
  build_candidates armors n bits = select_from 0 (take (Z.to_nat n) armors) bits.
Proof.
  unfold build_candidates. generalize (Z.to_nat n) as k. intros k.
  induction k as [|k IH].
  - reflexivity.
  - rewrite seq_S, fold_left_app, IH. simpl.
    unfold inner_step. rewrite bit_test_testbit.
    destruct (armors !! k) as [a|] eqn:Hk.
    + rewrite (take_S_r _ _ _ Hk), select_from_app. simpl.
      rewrite length_take_le by (apply lookup_lt_Some in Hk; lia).
      unfold push_back.
      destruct (Z.testbit bits (Z.of_nat k)); [reflexivity | now rewrite app_nil_r].
    + apply lookup_ge_None in Hk.
      rewrite !take_ge by lia.
      now destruct (Z.testbit bits (Z.of_nat k)).
Qed.

Lemma build_candidates_sublist (armors : ArmorVector) (n bits : Z) :
  build_candidates armors n bits `sublist_of` armors.
Proof.
  rewrite build_candidates_select.
  transitivity (take (Z.to_nat n) armors).
  - apply select_from_sublist.
  - apply sublist_take.
Qed.

(** A selection takes every item only for a mask whose low bits are all set. *)
Lemma select_from_length (v : ArmorVector) (bits : Z) :
  forall j : nat, (length (select_from j v bits) <= length v)%nat.
Proof.
  induction v as [|a v IH]; intros j; simpl; [lia|].
  specialize (IH (S j)).
  destruct (Z.testbit bits (Z.of_nat j)); simpl; lia.
Qed.

Lemma select_from_all (v : ArmorVector) (bits : Z) :
  forall j : nat,
    length (select_from j v bits) = length v ->
    forall i : nat, (j <= i < j + length v)%nat -> Z.testbit bits (Z.of_nat i) = true.
Proof.
  induction v as [|a v IH]; intros j Hlen i Hi; simpl in *; [lia|].
  pose proof (select_from_length v bits (S j)) as Hle.
  destruct (Z.testbit bits (Z.of_nat j)) eqn:Hj; simpl in Hlen; [|lia].
  destruct (Nat.eq_dec i j) as [->|Hne]; [exact Hj|].
  apply (IH (S j)); lia.
Qed.

(** ** exhaustive_max_defense: the loop over the masks *)

Lemma exhaustive_inv_init (armors : ArmorVector) (total_cost : Q) (n : Z) :
  exhaustive_inv armors total_cost n 0 (mkExhaustive armors 0%Q 0%Q 0%Q [] [] false).
Proof.
  unfold exhaustive_inv. simpl. split; [reflexivity|]. split.
  - intros _. split; [reflexivity|]. intros m Hm. lia.
  - discriminate.
Qed.

Lemma exhaustive_inv_body (armors : ArmorVector) (total_cost : Q) (n done : Z)
    (st : exhaustive_state) :
  0 <= done ->
  exhaustive_inv armors total_cost n done st ->
  exhaustive_inv armors total_cost n (done + 1) (exhaustive_body total_cost n done st).
Proof.
  intros Hdone (Harm & Hnone & Hsome).
  unfold exhaustive_body. rewrite Harm.
  fold (total_cost_of (build_candidates armors n done)).
  fold (total_defense_of (build_candidates armors n done)).
  set (cand := build_candidates armors n done) in *.
  assert (Hkeep : ~ feasible total_cost cand \/
                  (flag st = true /\ (total_defense_of cand <= best_defense st)%Q) ->
                  exhaustive_inv armors total_cost n (done + 1)
                    (mkExhaustive armors (total_cost_of cand) (total_defense_of cand)
                       (best_defense st) (bestVector st) cand (flag st))).
  { intros Hcase. unfold exhaustive_inv. simpl. split; [reflexivity|]. split.
    - intros Hflag. destruct (Hnone Hflag) as [Hbest Hinf]. split; [exact Hbest|].
      intros m Hm. destruct (Z.eq_dec m done) as [->|Hne].
      + destruct Hcase as [Hcase | [Hcase _]]; [exact Hcase | congruence].
      + apply Hinf. lia.
    - intros Hflag.
      destruct (Hsome Hflag) as (m & Hm & Hbest & Hdef & Hfeas & Hmax & Hfirst).
      exists m. split; [lia|]. repeat split; try assumption.
      intros m' Hm' Hfeas'. destruct (Z.eq_dec m' done) as [->|Hne].
      + destruct Hcase as [Hcase | [_ Hcase]]; [contradiction|].
        now rewrite <- Hdef.
      + apply Hmax; [lia | assumption]. }
  destruct (Qle_bool (total_cost_of cand) total_cost) eqn:Hfit.
  - apply Qle_bool_iff in Hfit.
    destruct (flag st) eqn:Hflag; simpl.
    + destruct (Qgt_bool (total_defense_of cand) (best_defense st)) eqn:Hgt.
      * (* a feasible candidate of greater defense replaces the stored one *)
        apply Qgt_bool_iff in Hgt.
        destruct (Hsome eq_refl) as (m & Hm & Hbest & Hdef & Hfeas & Hmax & Hfirst).
        unfold exhaustive_inv. simpl. split; [reflexivity|].
        split; [discriminate|]. intros _.
        exists done. split; [lia|]. repeat split; try assumption.
        -- intros m' Hm' Hfeas'. destruct (Z.eq_dec m' done) as [->|Hne];
             [apply Qle_refl|].
           apply Qlt_le_weak, Qle_lt_trans with (best_defense st); [|exact Hgt].
           rewrite Hdef. apply Hmax; [lia | assumption].
        -- intros m' Hm' Hfeas'.
           apply Qle_lt_trans with (best_defense st); [|exact Hgt].
           rewrite Hdef. apply Hmax; [lia | assumption].
      * apply Qgt_bool_false_iff in Hgt. apply Hkeep. right. now split.
    + (* the first feasible candidate is stored whatever its defense *)
      destruct (Hnone eq_refl) as [_ Hinf].
      unfold exhaustive_inv. simpl. split; [reflexivity|].
      split; [discriminate|]. intros _.
      exists done. split; [lia|]. repeat split; try assumption.
      * intros m' Hm' Hfeas'. destruct (Z.eq_dec m' done) as [->|Hne];
          [apply Qle_refl|].
        exfalso. apply (Hinf m'); [lia | assumption].
      * intros m' Hm' Hfeas'. exfalso. apply (Hinf m'); [lia | assumption].
  - apply Qle_bool_false_iff in Hfit. apply Hkeep. left.
    intros Hfeas. apply (Qlt_not_le _ _ Hfit Hfeas).
Qed.

(** The loop tries the masks from [done] up to the first one at which the
    guard fails (or the fuel ends), in increasing order. *)
Lemma exhaustive_inv_loop (armors : ArmorVector) (total_cost : Q) (n : Z) (fuel : nat) :
  forall (done : Z) (st : exhaustive_state),
    0 <= done -> done + Z.of_nat fuel < 2 ^ 64 ->
    exhaustive_inv armors total_cost n done st ->
    exists last,
      done <= last <= done + Z.of_nat fuel
      /\ (forall m, done <= m < last -> loop_guard m n = true)
      /\ (last < done + Z.of_nat fuel -> loop_guard last n = false)
      /\ exhaustive_inv armors total_cost n last
           (exhaustive_loop fuel total_cost n done st).
Proof.
  induction fuel as [|fuel IH]; intros done st Hdone Hfuel Hinv.
  - exists done. simpl. split; [lia|]. split; [intros m Hm; lia|]. split; [lia | exact Hinv].
  - cbn [exhaustive_loop]. destruct (loop_guard done n) eqn:Hguard.
    + rewrite Z.mod_small by lia.
      destruct (IH (done + 1) (exhaustive_body total_cost n done st))
        as (last & Hlast & Htrue & Hfalse & Hinv'); [lia | lia | |].
      { apply exhaustive_inv_body; assumption. }
      exists last. split; [lia|]. split; [|split; [|exact Hinv']].
      * intros m Hm. destruct (Z.eq_dec m done) as [->|Hne]; [exact Hguard|].
        apply Htrue. lia.
      * intros Hlt. apply Hfalse. lia.
    + exists done. split; [lia|]. split; [intros m Hm; lia|].
      split; [intros _; exact Hguard | exact Hinv].
Qed.

(** Once the guard is false where the fuel ends, more fuel changes nothing. *)
Lemma exhaustive_loop_fuel_enough (total_cost : Q) (n : Z) (fuel : nat) :
  forall (done : Z) (st : exhaustive_state) (extra : nat),
    0 <= done -> done + Z.of_nat fuel < 2 ^ 64 ->
    loop_guard (done + Z.of_nat fuel) n = false ->
    exhaustive_loop (fuel + extra) total_cost n done st
    = exhaustive_loop fuel total_cost n done st.
Proof.
  induction fuel as [|fuel IH]; intros done st extra Hdone Hfuel Hguard.
  - rewrite Z.add_0_r in Hguard.
    destruct extra as [|extra]; simpl; [reflexivity|]. now rewrite Hguard.
  - cbn [exhaustive_loop Nat.add]. destruct (loop_guard done n); [|reflexivity].
    rewrite Z.mod_small by lia.
    apply IH; [lia | lia |].
    replace (done + 1 + Z.of_nat fuel) with (done + Z.of_nat (S fuel)) by lia.
    exact Hguard.
Qed.

(** ** exhaustive_max_defense: the guard of the loop *)

Lemma loop_guard_small (n m : Z) :
  0 <= n <= 53 -> 0 <= m < 2 ^ n -> loop_guard m n = true.
Proof.
  intros Hn Hm. unfold loop_guard.
  destruct (Z.ltb_spec n 0); [lia|].
  assert (2 ^ n <= 2 ^ 53) by (apply Z.pow_le_mono_r; lia).
  rewrite uint64_to_double_exact by lia.
  apply Z.ltb_lt. lia.
Qed.

Lemma loop_guard_pow2_table :
  forallb (fun k => negb (loop_guard (2 ^ Z.of_nat k) (Z.of_nat k))) (seq 0 64) = true.
Proof. vm_compute. reflexivity. Qed.

(** The converted counter reaches [pow(2,n)] at [bits = 2^n] at the latest. *)
Lemma loop_guard_pow2 (n : Z) : 0 <= n < 64 -> loop_guard (2 ^ n) n = false.
Proof.
  intros Hn.
  assert (Hin : In (Z.to_nat n) (seq 0 64)) by (apply in_seq; lia).
  pose proof (proj1 (forallb_forall _ _) loop_guard_pow2_table (Z.to_nat n) Hin) as Htab.
  cbv beta in Htab. rewrite Z2Nat.id in Htab by lia.
  apply negb_true_iff, Htab.
Qed.

Lemma loop_guard_negative (n m : Z) : n < 0 -> m <> 0 -> loop_guard m n = false.
Proof.
  intros Hn Hm. unfold loop_guard.
  destruct (Z.ltb_spec n 0); [|lia].
  destruct (Z.eqb_spec m 0); [contradiction | reflexivity].
Qed.

(** With 54 items the counter [2^54 - 1], the mask of the whole vector,
    converts to the double [2^54]: the guard is false there. *)
Lemma loop_guard_54 : loop_guard (2 ^ 54 - 1) 54 = false.
Proof. vm_compute. reflexivity. Qed.

(** ** exhaustive_max_defense: the run *)

Lemma exhaustive_fuel_Z (n : Z) : Z.of_nat (exhaustive_fuel n) = 2 ^ Z.max n 0.
Proof.
  unfold exhaustive_fuel. apply Z2Nat.id. apply Z.pow_nonneg. lia.
Qed.

Lemma exhaustive_fuel_bound (n : Z) : n < 64 -> Z.of_nat (exhaustive_fuel n) <= 2 ^ 63.
Proof.
  intros Hn. rewrite exhaustive_fuel_Z. apply Z.pow_le_mono_r; lia.
Qed.

Lemma exhaustive_guard_at_fuel (n : Z) :
  n < 64 -> loop_guard (Z.of_nat (exhaustive_fuel n)) n = false.
Proof.
  intros Hn. rewrite exhaustive_fuel_Z.
  destruct (Z.max_spec n 0) as [[Hneg ->] | [Hpos ->]].
  - apply loop_guard_negative; [lia | discriminate].
  - apply loop_guard_pow2. lia.
Qed.

(** The fuel of [exhaustive_run] is no cut-off: the loop ends on its guard. *)
Lemma exhaustive_run_fuel_enough (total_cost : Q) (n : Z)
    (st : exhaustive_state) (extra : nat) :
  n < 64 ->
  exhaustive_loop (exhaustive_fuel n + extra) total_cost n 0 st
  = exhaustive_loop (exhaustive_fuel n) total_cost n 0 st.
Proof.
  intros Hn. apply exhaustive_loop_fuel_enough.
  - lia.
  - pose proof (exhaustive_fuel_bound n Hn). lia.
  - apply exhaustive_guard_at_fuel, Hn.
Qed.

(** What a run that passes the assertion has done: it tried the masks below
    [last], the first counter at which the guard fails. *)
Lemma exhaustive_run_spec (armors : ArmorVector) (total_cost : Q) (st : exhaustive_state) :
  exhaustive_run armors total_cost = Some st ->
  let n := int_of_size (Z.of_nat (length armors)) in
  n < 64
  /\ exists last,
       0 <= last <= 2 ^ Z.max n 0
       /\ (forall m, 0 <= m < last -> loop_guard m n = true)
       /\ loop_guard last n = false
       /\ exhaustive_inv armors total_cost n last st.
Proof.
  intros Hrun n. unfold exhaustive_run in Hrun. fold n in Hrun.
  destruct (Z.ltb_spec n 64) as [Hn|Hn]; [|discriminate].
  apply (inj Some) in Hrun. subst st. split; [exact Hn|].
  pose proof (exhaustive_fuel_bound n Hn) as Hbound.
  destruct (exhaustive_inv_loop armors total_cost n (exhaustive_fuel n) 0
              (mkExhaustive armors 0%Q 0%Q 0%Q [] [] false))
    as (last & Hlast & Htrue & Hfalse & Hinv); [lia | lia | apply exhaustive_inv_init |].
  exists last. rewrite <- exhaustive_fuel_Z.
  split; [lia|]. split; [exact Htrue|]. split; [|exact Hinv].
  destruct (Z.eq_dec last (Z.of_nat (exhaustive_fuel n))) as [->|Hne].
  - apply exhaustive_guard_at_fuel, Hn.
  - apply Hfalse. lia.
Qed.

Lemma exhaustive_run_Some (armors : ArmorVector) (total_cost : Q) :
  int_of_size (Z.of_nat (length armors)) < 64 ->
  exists st, exhaustive_run armors total_cost = Some st.
Proof.
  intros Hn. unfold exhaustive_run.
  destruct (Z.ltb_spec (int_of_size (Z.of_nat (length armors))) 64); [|lia].
  eexists. reflexivity.
Qed.

Lemma exhaustive_run_None (armors : ArmorVector) (total_cost : Q) :
  64 <= int_of_size (Z.of_nat (length armors)) ->
  exhaustive_run armors total_cost = None.
Proof.
  intros Hn. unfold exhaustive_run.
  destruct (Z.ltb_spec (int_of_size (Z.of_nat (length armors))) 64); [lia|].
  reflexivity.
Qed.

Lemma exhaustive_max_defense_Some (armors : ArmorVector) (total_cost : Q) (s : ArmorVector) :
  exhaustive_max_defense armors total_cost = Some s ->
  exists st, exhaustive_run armors total_cost = Some st /\ bestVector st = s.
Proof.
  unfold exhaustive_max_defense.
  destruct (exhaustive_run armors total_cost) as [st|]; simpl; [|discriminate].
  intros Hs. apply (inj Some) in Hs. now exists st.
Qed.

(** The returned vector is the candidate of a tried mask, or the empty vector
    the function starts with. *)
Lemma exhaustive_max_defense_candidate (armors : ArmorVector) (total_cost : Q)
    (s : ArmorVector) :
  exhaustive_max_defense armors total_cost = Some s ->
  s = []
  \/ exists m, 0 <= m < 2 ^ Z.max (int_of_size (Z.of_nat (length armors))) 0
       /\ loop_guard m (int_of_size (Z.of_nat (length armors))) = true
       /\ feasible total_cost s
       /\ s = build_candidates armors (int_of_size (Z.of_nat (length armors))) m.
Proof.
  intros Hs. apply exhaustive_max_defense_Some in Hs as (st & Hrun & <-).
  apply exhaustive_run_spec in Hrun as (_ & last & Hlast & Htrue & _ & (_ & Hnone & Hsome)).
  destruct (flag st) eqn:Hflag.
  - right. destruct (Hsome eq_refl) as (m & Hm & Hbest & _ & Hfeas & _).
    exists m. split; [lia|]. split; [apply Htrue; lia|].
    rewrite Hbest. split; [exact Hfeas | reflexivity].
  - left. apply Hnone. reflexivity.
Qed.

(** ** The input vector is left as it was *)

Lemma greedy_run_armors (armors : ArmorVector) (total_cost : Q) :
  g_armors (greedy_run armors total_cost) = armors.
Proof. apply greedy_run_inv. Qed.

(** C9: neither solver changes the caller's vector: in the final state of
    [greedy_max_defense], and in that of [exhaustive_max_defense] when it
    returns, the vector passed by reference holds the same items in the same
    order. *)
Theorem solvers_leave_input (armors : ArmorVector) (total_cost : Q) :
  g_armors (greedy_run armors total_cost) = armors
  /\ match exhaustive_run armors total_cost with
     | Some st => e_armors st = armors
     | None => True
     end.
Proof.
  split; [apply greedy_run_armors|].
  destruct (exhaustive_run armors total_cost) as [st|] eqn:Hrun; [|exact I].
  apply exhaustive_run_spec in Hrun as (_ & last & _ & _ & _ & (Harm & _)).
  exact Harm.
Qed.

(** ** Order of the exhaustive solution *)

Lemma StronglySorted_lt_S (js : list nat) :
  StronglySorted lt js -> StronglySorted lt (S <$> js).
Proof.
  induction 1 as [|j js _ IH Hall]; simpl; constructor; [exact IH|].
  apply Forall_fmap. eapply Forall_impl; [exact Hall|]. simpl. lia.
Qed.

(** A sub-sequence is the items at strictly increasing positions. *)
Lemma sublist_indices (s v : ArmorVector) :
  s `sublist_of` v ->
  exists js : list nat,
    StronglySorted lt js /\ Forall2 (fun j a => v !! j = Some a) js s.
Proof.
  induction 1 as [|a s v _ (js & Hsorted & Hjs)|a s v _ (js & Hsorted & Hjs)].
  - exists []. split; constructor.
  - exists (0%nat :: (S <$> js)). split.
    + constructor; [apply StronglySorted_lt_S, Hsorted|].
      apply Forall_fmap, Forall_true. simpl. lia.
    + constructor; [reflexivity|]. apply Forall2_fmap_l. exact Hjs.
  - exists (S <$> js). split; [apply StronglySorted_lt_S, Hsorted|].
    apply Forall2_fmap_l. exact Hjs.
Qed.

Lemma exhaustive_max_defense_sublist (armors s : ArmorVector) (total_cost : Q) :
  exhaustive_max_defense armors total_cost = Some s -> s `sublist_of` armors.
Proof.
  intros Hs. apply exhaustive_max_defense_candidate in Hs as [-> | (m & _ & _ & _ & ->)].
  - apply sublist_nil_l.
  - apply build_candidates_sublist.
Qed.

Lemma int_of_size_length (armors : ArmorVector) :
  (length armors < 64)%nat ->
  int_of_size (Z.of_nat (length armors)) = Z.of_nat (length armors).
Proof. intros Hlen. apply int_of_size_small. lia. Qed.

Lemma exhaustive_max_defense_returns (armors : ArmorVector) (total_cost : Q) :
  (length armors < 64)%nat ->
  exists s, exhaustive_max_defense armors total_cost = Some s.
Proof.
  intros Hlen.
  destruct (exhaustive_run_Some armors total_cost) as [st Hrun].
  - rewrite int_of_size_length by assumption. lia.
  - exists (bestVector st). unfold exhaustive_max_defense. now rewrite Hrun.
Qed.

(** C10: with fewer than 64 items, [exhaustive_max_defense] returns a vector
    made of the items at strictly increasing positions of the input: every
    position is used at most once and the input order is kept. *)
Theorem exhaustive_max_defense_ascending (armors : ArmorVector) (total_cost : Q) :
  (length armors < 64)%nat ->
  exists s,
    exhaustive_max_defense armors total_cost = Some s
    /\ exists js : list nat,
         StronglySorted lt js
         /\ Forall2 (fun j a => armors !! j = Some a) js s.
Proof.
  intros Hlen.
  destruct (exhaustive_max_defense_returns armors total_cost Hlen) as [s Hs].
  exists s. split; [exact Hs|].
  apply sublist_indices. eapply exhaustive_max_defense_sublist, Hs.
Qed.

Lemma exhaustive_max_defense_ascending_witness :
  (length scenario < 64)%nat
  /\ exists s,
       exhaustive_max_defense scenario 50 = Some s
       /\ exists js : list nat,
            StronglySorted lt js
            /\ Forall2 (fun j a => scenario !! j = Some a) js s.
Proof.
  split; [simpl; lia | apply (exhaustive_max_defense_ascending scenario 50); simpl; lia].
Defined.

(** ** The assertion on the size *)

(** With fewer than 64 items the assertion passes and a vector is returned;
    from 64 items up to the range of [int] the assertion fails. *)
Lemma exhaustive_max_defense_assert (armors : ArmorVector) (total_cost : Q) :
  ((length armors < 64)%nat ->
     exists s, exhaustive_max_defense armors total_cost = Some s)
  /\ (64 <= Z.of_nat (length armors) < 2 ^ 31 ->
      exhaustive_max_defense armors total_cost = None).
Proof.
  split; [apply exhaustive_max_defense_returns|].
  intros Hlen. unfold exhaustive_max_defense.
  rewrite exhaustive_run_None; [reflexivity|].
  rewrite int_of_size_small; lia.
Qed.

(** A size of 2^31 converts to the [int] -2^31: the assertion passes, the
    guard [0 < pow(2,n)] is false at once and the empty vector is returned. *)
Lemma exhaustive_max_defense_int_min (armors : ArmorVector) (total_cost : Q) :
  Z.of_nat (length armors) = 2 ^ 31 ->
  exhaustive_max_defense armors total_cost = Some [].
Proof.
  intros Hlen. unfold exhaustive_max_defense, exhaustive_run.
  rewrite Hlen. reflexivity.
Qed.

Lemma unit_armors_length (k : nat) : length (unit_armors k) = k.
Proof. apply repeat_length. Qed.

(** C7 (the code departs from the claim): a vector of 2^31 items has 64 or
    more items, yet [exhaustive_max_defense] passes its assertion and returns
    a vector. *)
Theorem exhaustive_max_defense_assert_wraps :
  64 <= Z.of_nat (length (unit_armors (Z.to_nat (2 ^ 31))))
  /\ exhaustive_max_defense (unit_armors (Z.to_nat (2 ^ 31))) 0 = Some [].
Proof.
  assert (Hlen : Z.of_nat (length (unit_armors (Z.to_nat (2 ^ 31)))) = 2 ^ 31).
  { rewrite unit_armors_length. apply Z2Nat.id. apply Z.pow_nonneg. lia. }
  split.
  - rewrite Hlen. apply Z.pow_le_mono_r with (a := 2) (b := 6) (c := 31); lia.
  - apply exhaustive_max_defense_int_min, Hlen.
Qed.


(** ** The exhaustive search on 54 items *)

Lemma all_bits_ones (m k : Z) :
  0 <= k -> 0 <= m < 2 ^ k ->
  (forall i : nat, Z.of_nat i < k -> Z.testbit m (Z.of_nat i) = true) ->
  m = 2 ^ k - 1.
Proof.
  intros Hk Hm Hbits.
  rewrite Z.sub_1_r, <- Z.ones_equiv.
  apply Z.bits_inj'. intros i Hi.
  destruct (Z.lt_ge_cases i k) as [Hlt | Hge].
  - rewrite Z.ones_spec_low by lia.
    rewrite <- (Z2Nat.id i Hi). apply Hbits. lia.
  - rewrite Z.ones_spec_high by lia.
    destruct (Z.eq_dec m 0) as [-> | Hne]; [apply Z.bits_0|].
    apply Z.bits_above_log2; [lia|].
    apply Z.lt_le_trans with k; [|exact Hge].
    apply Z.log2_lt_pow2; lia.
Qed.

Lemma sumQ_defense_unit (v : ArmorVector) :
  (forall a, a ∈ v -> a = unit_armor) ->
  (sumQ defense v == inject_Z (Z.of_nat (length v)))%Q.
Proof.
  induction v as [|a v IH]; intros Hall.
  - reflexivity.
  - rewrite sumQ_cons, IH by (intros b Hb; apply Hall; now right).
    rewrite (Hall a) by now left.
    rewrite length_cons, Nat2Z.inj_succ, <- Z.add_1_l, inject_Z_plus.
    reflexivity.
Qed.

Lemma unit_armors_sublist (k : nat) (v : ArmorVector) :
  v `sublist_of` unit_armors k -> forall a, a ∈ v -> a = unit_armor.
Proof.
  intros Hsub a Ha.
  apply (sublist_submseteq _ _) in Hsub.
  pose proof (elem_of_submseteq _ _ _ Ha Hsub) as Hin.
  apply list_elem_of_In, repeat_spec in Hin. exact Hin.
Qed.

(** On 54 unit items with a budget of 54 the mask of the whole vector is
    never tried: the returned vector has at most 53 items. *)
Lemma exhaustive_unit54 :
  exists s,
    exhaustive_max_defense (unit_armors 54) 54 = Some s
    /\ (total_defense_of s <= 53)%Q.
Proof.
  destruct (exhaustive_max_defense_returns (unit_armors 54) 54) as [s Hs].
  { rewrite unit_armors_length. lia. }
  exists s. split; [exact Hs|].
  pose proof (exhaustive_max_defense_sublist _ _ _ Hs) as Hsub.
  rewrite total_defense_of_sumQ,
    (sumQ_defense_unit s (unit_armors_sublist 54 s Hsub)).
  apply exhaustive_max_defense_candidate in Hs as [-> | (m & Hm & Hguard & _ & Hcand)].
  - discriminate.
  - rewrite unit_armors_length in Hm, Hguard, Hcand.
    change (int_of_size (Z.of_nat 54)) with 54 in Hm, Hguard, Hcand.
    change (Z.max 54 0) with 54 in Hm.
    assert (Hne : m <> 2 ^ 54 - 1).
    { intros ->. rewrite loop_guard_54 in Hguard. discriminate. }
    rewrite build_candidates_select in Hcand.
    rewrite take_ge in Hcand by (rewrite unit_armors_length; lia).
    pose proof (select_from_length (unit_armors 54) m 0) as Hle.
    rewrite <- Hcand, unit_armors_length in Hle.
    assert (Hlt : (length s < 54)%nat).
    { destruct (Nat.eq_dec (length s) 54%nat) as [Heq | Hneq]; [|lia].
      exfalso. apply Hne. apply all_bits_ones; [lia | exact Hm |].
      intros i Hi. apply (select_from_all (unit_armors 54) m 0).
      - rewrite <- Hcand, unit_armors_length. exact Heq.
      - rewrite unit_armors_length. lia. }
    change (inject_Z (Z.of_nat (length s)) <= inject_Z 53)%Q.
    rewrite <- Zle_Qle. lia.
Qed.

Lemma greedy_unit54 : greedy_max_defense (unit_armors 54) 54 = unit_armors 54.
Proof. vm_compute. reflexivity. Qed.

Lemma build_candidates_unit54 :
  build_candidates (unit_armors 54) 54 (2 ^ 54 - 1) = unit_armors 54.
Proof. vm_compute. reflexivity. Qed.

Lemma total_unit54 :
  (total_cost_of (unit_armors 54) == 54)%Q /\ (total_defense_of (unit_armors 54) == 54)%Q.
Proof. split; vm_compute; reflexivity. Qed.

(** C1 (the code departs from the claim): with 54 items of cost 1 and defense
    1 and a budget of 54, the whole input is a sub-collection within the
    budget, and the returned vector has a smaller total defense. *)
Theorem exhaustive_not_optimal_54 :
  unit_armors 54 ⊆+ unit_armors 54
  /\ feasible 54 (unit_armors 54)
  /\ exists s,
       exhaustive_max_defense (unit_armors 54) 54 = Some s
       /\ (total_defense_of s < total_defense_of (unit_armors 54))%Q.
Proof.
  destruct total_unit54 as [Hcost Hdef].
  split; [reflexivity|]. split.
  - unfold feasible. rewrite Hcost. apply Qle_refl.
  - destruct exhaustive_unit54 as (s & Hs & Hle).
    exists s. split; [exact Hs|]. rewrite Hdef. lra.
Qed.

(** C4 (the code departs from the claim): on the same input the greedy
    solver takes all 54 items, and the exhaustive result has a smaller total
    defense than the greedy result. *)
Theorem exhaustive_below_greedy_54 :
  exists s,
    exhaustive_max_defense (unit_armors 54) 54 = Some s
    /\ (total_defense_of s
        < total_defense_of (greedy_max_defense (unit_armors 54) 54))%Q.
Proof.
  destruct total_unit54 as [_ Hdef].
  destruct exhaustive_unit54 as (s & Hs & Hle).
  exists s. split; [exact Hs|]. rewrite greedy_unit54, Hdef. lra.
Qed.

(** C8 (the code departs from the claim): on the same input the mask
    [2^54 - 1] is below [2^54], its candidate is within the budget, and the
    returned vector has a smaller total defense: it is not the candidate of
    a feasible mask of greatest defense. *)
Theorem exhaustive_not_first_best_54 :
  0 <= 2 ^ 54 - 1 < 2 ^ 54
  /\ feasible 54 (build_candidates (unit_armors 54) 54 (2 ^ 54 - 1))
  /\ exists s,
       exhaustive_max_defense (unit_armors 54) 54 = Some s
       /\ (total_defense_of s
           < total_defense_of (build_candidates (unit_armors 54) 54 (2 ^ 54 - 1)))%Q.
Proof.
  destruct total_unit54 as [Hcost Hdef].
  split; [lia|]. rewrite build_candidates_unit54. split.
  - unfold feasible. rewrite Hcost. apply Qle_refl.
  - destruct exhaustive_unit54 as (s & Hs & Hle).
    exists s. split; [exact Hs|]. rewrite Hdef. lra.
Qed.

(** * Further properties *)

(** ** filter_armor_vector: what is kept *)

Lemma qualifies_iff (lo hi : Q) (a : ArmorItem) :
  qualifies lo hi a = true <-> (lo <= defense a)%Q /\ (defense a <= hi)%Q.
Proof. unfold qualifies. now rewrite andb_true_iff, !Qle_bool_iff. Qed.

Lemma filter_sublist {A : Type} (f : A -> bool) (l : list A) :
  List.filter f l `sublist_of` l.
Proof.
  induction l as [|x l IH]; simpl; [constructor|].
  destruct (f x); [apply sublist_skip | apply sublist_cons]; exact IH.
Qed.

Lemma filter_all {A : Type} (f : A -> bool) (l : list A) :
  Forall (fun x => f x = true) l -> List.filter f l = l.
Proof.
  induction 1 as [|x l Hx _ IH]; simpl; [reflexivity|].
  now rewrite Hx, IH.
Qed.

(** The result is a non-empty prefix of the qualifying items when there is
    one, whatever the limit. *)
Lemma filter_armor_vector_prefix (source : ArmorVector) (lo hi : Q) (total_size : Z) :
  exists k : nat,
    (1 <= k)%nat
    /\ filter_armor_vector source lo hi total_size
       = take k (List.filter (qualifies lo hi) source).
Proof.
  unfold filter_armor_vector. rewrite filter_loop_spec. simpl.
  eexists. split; [|reflexivity]. lia.
Qed.

(** X1: for every limit, positive or not, every item returned by
    [filter_armor_vector] has its defense between the two bounds, the items
    keep the order of the source, and the result is empty only when no item
    of the source is within the bounds. *)
Theorem filter_armor_vector_sound (source : ArmorVector) (lo hi : Q) (total_size : Z) :
  Forall (fun a => (lo <= defense a)%Q /\ (defense a <= hi)%Q)
         (filter_armor_vector source lo hi total_size)
  /\ filter_armor_vector source lo hi total_size `sublist_of` source
  /\ (filter_armor_vector source lo hi total_size = [] ->
      Forall (fun a => ~ ((lo <= defense a)%Q /\ (defense a <= hi)%Q)) source).
Proof.
  destruct (filter_armor_vector_prefix source lo hi total_size) as (k & Hk & ->).
  split; [|split].
  - apply Forall_forall. intros a Ha.
    apply qualifies_iff.
    assert (Hin : a ∈ List.filter (qualifies lo hi) source).
    { eapply elem_of_submseteq; [exact Ha|]. apply sublist_submseteq, sublist_take. }
    apply list_elem_of_In, filter_In in Hin. apply Hin.
  - transitivity (List.filter (qualifies lo hi) source);
      [apply sublist_take | apply filter_sublist].
  - intros Hnil. apply Forall_forall. intros a Ha Hq.
    assert (Hin : In a (List.filter (qualifies lo hi) source)).
    { apply filter_In. split; [now apply list_elem_of_In | now apply qualifies_iff]. }
    destruct (List.filter (qualifies lo hi) source) as [|b l]; [contradiction|].
    destruct k as [|k]; [lia | discriminate].
Qed.

(** X2: for a limit between 1 and the greatest [int], the result is made of
    the first [total_size] items of the source that are within the bounds, so
    it has at most [total_size] items. *)
Theorem filter_armor_vector_first (source : ArmorVector) (lo hi : Q) (total_size : Z) :
  0 < total_size < 2 ^ 31 ->
  filter_armor_vector source lo hi total_size
  = take (Z.to_nat total_size) (List.filter (qualifies lo hi) source)
  /\ Z.of_nat (length (filter_armor_vector source lo hi total_size)) <= total_size.
Proof.
  intros Hts. rewrite filter_armor_vector_positive by exact Hts.
  split; [reflexivity|]. rewrite length_take. lia.
Qed.

Lemma filter_armor_vector_first_witness :
  0 < 2 < 2 ^ 31
  /\ filter_armor_vector scenario 100 1000 2
     = take (Z.to_nat 2) (List.filter (qualifies 100 1000) scenario)
  /\ Z.of_nat (length (filter_armor_vector scenario 100 1000 2)) <= 2.
Proof.
  split; [lia | apply (filter_armor_vector_first scenario 100 1000 2); lia].
Defined.

(** X3: filtering is idempotent: the result filtered again with the same
    bounds and the same limit is the result itself. *)
Theorem filter_armor_vector_idempotent (source : ArmorVector) (lo hi : Q)
    (total_size : Z) :
  filter_armor_vector (filter_armor_vector source lo hi total_size) lo hi total_size
  = filter_armor_vector source lo hi total_size.
Proof.
  unfold filter_armor_vector. rewrite !filter_loop_spec. simpl.
  set (k := Nat.max 1 (Z.to_nat (size_of_int total_size - 0))).
  rewrite (filter_all (qualifies lo hi)).
  - rewrite take_take. f_equal. lia.
  - apply Forall_forall. intros a Ha.
    assert (Hin : a ∈ List.filter (qualifies lo hi) source).
    { eapply elem_of_submseteq; [exact Ha|]. apply sublist_submseteq, sublist_take. }
    apply list_elem_of_In, filter_In in Hin. apply Hin.
Qed.

(** ** greedy_max_defense: what is selected *)





(** X4: the items selected by [greedy_max_defense] and the items left in
    [todo] are, together, the items of the input: every input position is
    selected at most once and nothing else is selected. *)
Theorem greedy_max_defense_partition (armors : ArmorVector) (total_cost : Q) :
  greedy_max_defense armors total_cost ++ todo (greedy_run armors total_cost)
    ≡ₚ armors
  /\ greedy_max_defense armors total_cost ⊆+ armors.
Proof.
  split; [apply greedy_run_inv | apply greedy_max_defense_submseteq].
Qed.



(** ** Budgets below every cost *)




(** ** exhaustive_max_defense: further properties *)

(** X9: for a vector whose size fits an [int], the assertion of
    [exhaustive_max_defense] fails exactly when the vector has 64 items or
    more; below 64 items a vector is returned. *)
Theorem exhaustive_max_defense_assertion (armors : ArmorVector) (total_cost : Q) :
  Z.of_nat (length armors) < 2 ^ 31 ->
  (exhaustive_max_defense armors total_cost = None <-> 64 <= Z.of_nat (length armors)).
Proof.
  intros Hlen. split.
  - intros Hnone. destruct (Z.lt_ge_cases (Z.of_nat (length armors)) 64) as [Hlt|Hge];
      [|exact Hge].
    destruct (exhaustive_max_defense_returns armors total_cost) as [s Hs]; [lia|].
    congruence.
  - intros Hge. apply exhaustive_max_defense_assert. lia.
Qed.

Lemma exhaustive_max_defense_assertion_witness :
  Z.of_nat (length (unit_armors 64)) < 2 ^ 31
  /\ (exhaustive_max_defense (unit_armors 64) 10 = None
      <-> 64 <= Z.of_nat (length (unit_armors 64))).
Proof.
  split; [reflexivity | apply (exhaustive_max_defense_assertion (unit_armors 64) 10); reflexivity].
Defined.




(** ** getline: fields and lines *)

Lemma read_field_rest_length (delim : ascii) (c : ascii) (stream : string) :
  (String.length (snd (read_field delim (String c stream))) <= String.length stream)%nat.
Proof.
  revert c. induction stream as [|c' stream IH]; intros c; simpl.
  - destruct (Ascii.eqb c delim); simpl; lia.
  - destruct (Ascii.eqb c delim); simpl; [lia|].
    specialize (IH c'). simpl in IH. lia.
Qed.

(** The fuel of [getline_all] is no cut-off. *)
Lemma getline_loop_fuel_enough (delim : ascii) (fuel : nat) :
  forall (stream : string) (fields : list string) (extra : nat),
    (String.length stream <= fuel)%nat ->
    getline_loop (fuel + extra) delim stream fields
    = getline_loop fuel delim stream fields.
Proof.
  induction fuel as [|fuel IH]; intros stream fields extra Hlen.
  - destruct stream as [|c stream]; [|simpl in Hlen; lia].
    destruct extra; reflexivity.
  - destruct stream as [|c stream]; [reflexivity|].
    cbn [Nat.add getline_loop getline].
    destruct (read_field delim (String c stream)) as [field rest] eqn:Hread.
    apply IH.
    pose proof (read_field_rest_length delim c stream) as Hle.
    rewrite Hread in Hle. simpl in Hle, Hlen. lia.
Qed.

Lemma getline_loop_fields (delim : ascii) (fuel : nat) :
  forall (stream : string) (fields : list string),
    getline_loop fuel delim stream fields
    = fields ++ getline_loop fuel delim stream [].
Proof.
  induction fuel as [|fuel IH]; intros stream fields; simpl.
  - now rewrite app_nil_r.
  - destruct (getline delim stream) as [[field rest]|]; [|now rewrite app_nil_r].
    rewrite IH, (IH rest (push_back [] field)). unfold push_back.
    now rewrite <- app_assoc.
Qed.

Lemma getline_all_nil (delim : ascii) : getline_all delim EmptyString = [].
Proof. reflexivity. Qed.

Lemma getline_all_cons (delim : ascii) (c : ascii) (stream : string) :
  getline_all delim (String c stream)
  = fst (read_field delim (String c stream))
    :: getline_all delim (snd (read_field delim (String c stream))).
Proof.
  unfold getline_all. cbn [String.length getline_loop getline].
  destruct (read_field delim (String c stream)) as [field rest] eqn:Hread.
  rewrite getline_loop_fields. cbn [fst snd]. unfold push_back. simpl. f_equal.
  pose proof (read_field_rest_length delim c stream) as Hle.
  rewrite Hread in Hle. simpl in Hle.
  replace (String.length stream)
    with (String.length rest + (String.length stream - String.length rest))%nat by lia.
  apply getline_loop_fuel_enough. lia.
Qed.

Lemma read_field_delimiter (delim : ascii) (field rest : string) :
  delimiter_free delim field ->
  read_field delim (field ++ String delim rest) = (field, rest).
Proof.
  induction field as [|c field IH]; simpl.
  - intros _. now rewrite Ascii.eqb_refl.
  - intros [Hc Hfree]. apply Ascii.eqb_neq in Hc. rewrite Hc, (IH Hfree). reflexivity.
Qed.

Lemma read_field_end (delim : ascii) (field : string) :
  delimiter_free delim field ->
  read_field delim field = (field, EmptyString).
Proof.
  induction field as [|c field IH]; simpl.
  - reflexivity.
  - intros [Hc Hfree]. apply Ascii.eqb_neq in Hc. rewrite Hc, (IH Hfree). reflexivity.
Qed.

Lemma getline_all_first (delim : ascii) (field rest : string) :
  delimiter_free delim field ->
  getline_all delim (field ++ String delim rest) = field :: getline_all delim rest.
Proof.
  intros Hfree.
  destruct (field ++ String delim rest)%string as [|c stream] eqn:Hs.
  - destruct field; discriminate.
  - rewrite getline_all_cons, <- Hs, read_field_delimiter by exact Hfree.
    reflexivity.
Qed.

Lemma getline_all_last (delim : ascii) (field : string) :
  delimiter_free delim field -> field <> EmptyString ->
  getline_all delim field = [field].
Proof.
  intros Hfree Hne. destruct field as [|c field]; [contradiction|].
  rewrite getline_all_cons, read_field_end by exact Hfree. reflexivity.
Qed.

(** X15: the loop of [std::getline] reads back the fields that were written
    with the delimiter between them, when no field holds the delimiter and
    the last field is not empty; an empty last field is lost, so that a line
    ending with the delimiter has one field less. *)
Theorem getline_all_join (delim : ascii) (fields : list string) :
  Forall (delimiter_free delim) fields ->
  (last fields <> Some EmptyString ->
   getline_all delim (join_fields delim fields) = fields)
  /\ (fields <> [] ->
      getline_all delim (join_fields delim (fields ++ [EmptyString])) = fields).
Proof.
  induction 1 as [|field fields Hfield Hfields [IH1 IH2]].
  - split; [reflexivity | congruence].
  - destruct fields as [|field' fields].
    + split.
      * intros Hlast. apply getline_all_last; [exact Hfield|].
        intros ->. now apply Hlast.
      * intros _. cbn [app join_fields].
        rewrite getline_all_first by exact Hfield. reflexivity.
    + split.
      * intros Hlast. cbn [join_fields].
        rewrite getline_all_first by exact Hfield. f_equal.
        apply IH1. exact Hlast.
      * intros _. change (join_fields delim ((field :: field' :: fields) ++ [EmptyString]))
          with (field ++ String delim
                  (join_fields delim ((field' :: fields) ++ [EmptyString])))%string.
        rewrite getline_all_first by exact Hfield. f_equal.
        apply IH2. discriminate.
Qed.

Lemma getline_all_join_witness :
  Forall (delimiter_free "^"%char) ["helmet"; "10"; "60"]%string
  /\ getline_all "^"%char (join_fields "^"%char ["helmet"; "10"; "60"]%string)
     = ["helmet"; "10"; "60"]%string.
Proof.
  assert (Hfree : Forall (delimiter_free "^"%char) ["helmet"; "10"; "60"]%string).
  { repeat constructor; discriminate. }
  split; [exact Hfree|].
  apply (getline_all_join "^"%char ["helmet"; "10"; "60"]%string Hfree).
  discriminate.
Defined.

(** ** load_armor_database *)

Lemma new_ArmorItem_Some (d : string) (c v : Q) (a : ArmorItem) :
  new_ArmorItem d c v = Some a <-> a = mkArmorItem d c v /\ ArmorItem_ok a.
Proof.
  unfold new_ArmorItem, ArmorItem_ok. split.
  - destruct (String.eqb_spec d EmptyString) as [Heq|Hne]; [discriminate|]. simpl.
    destruct (Qgt_bool c 0) eqn:Hc; [|discriminate].
    intros Ha. apply (inj Some) in Ha. subst a. simpl.
    apply Qgt_bool_iff in Hc. auto.
  - intros [-> [Hd Hc]]. simpl in Hd, Hc.
    destruct (String.eqb_spec d EmptyString) as [Heq|Hne]; [contradiction|]. simpl.
    apply Qgt_bool_iff in Hc. now rewrite Hc.
Qed.

Section LoadProperties.
Variable read_double : string -> Q.

(** Whatever the number of lines, the loop pushes only items that passed the
    assertions of the constructor. *)
Lemma load_lines_ok (lines : list string) :
  forall (line_number : Z) (result v : ArmorVector),
    Forall ArmorItem_ok result ->
    load_lines read_double lines line_number result = Loaded v ->
    Forall ArmorItem_ok v.
Proof.
  induction lines as [|line lines IH]; intros line_number result v Hok.
  - simpl. intros Hv. injection Hv as <-. exact Hok.
  - cbn [load_lines].
    destruct ((line_number + 1) mod 2 ^ 64 =? 1); [apply IH, Hok|].
    unfold parse_dbl. cbn [fst snd andb].
    destruct (getline_all "^"%char line) as [|d [|cf [|df [|]]]]; try discriminate.
    destruct (new_ArmorItem d (read_double cf) (read_double df)) as [armor|] eqn:Hnew;
      [|discriminate].
    apply IH. unfold push_back. apply Forall_app. split; [exact Hok|].
    constructor; [|constructor]. apply new_ArmorItem_Some in Hnew. apply Hnew.
Qed.

Lemma load_armor_database_ok (file : option string) (v : ArmorVector) :
  load_armor_database read_double file = Loaded v -> Forall ArmorItem_ok v.
Proof.
  destruct file as [content|]; simpl; [|discriminate].
  apply load_lines_ok. constructor.
Qed.
End LoadProperties.

(** X16: when [load_armor_database] returns a vector, every item of the
    vector has a description that is not empty and a cost above 0. *)
Theorem load_armor_database_items_ok (read_double : string -> Q)
    (file : option string) (v : ArmorVector) :
  load_armor_database read_double file = Loaded v -> Forall ArmorItem_ok v.
Proof. apply load_armor_database_ok. Qed.

Lemma sample_file_loaded :
  load_armor_database read_unsigned (Some sample_file)
  = Loaded [mkArmorItem "helmet" 10 60; mkArmorItem "shield" 20 100].
Proof. vm_compute. reflexivity. Defined.

Lemma load_armor_database_items_ok_witness :
  load_armor_database read_unsigned (Some sample_file)
  = Loaded [mkArmorItem "helmet" 10 60; mkArmorItem "shield" 20 100]
  /\ Forall ArmorItem_ok [mkArmorItem "helmet" 10 60; mkArmorItem "shield" 20 100].
Proof.
  split; [exact sample_file_loaded|].
  exact (load_armor_database_items_ok read_unsigned (Some sample_file) _ sample_file_loaded).
Defined.

(** X18: the first line of the file is never examined: two files that differ
    only in their first line give the same result. *)
Theorem load_armor_database_header (read_double : string -> Q)
    (header header' body : string) :
  delimiter_free "010"%char header -> delimiter_free "010"%char header' ->
  load_armor_database read_double (Some (header ++ String "010"%char body)%string)
  = load_armor_database read_double (Some (header' ++ String "010"%char body)%string).
Proof.
  intros Hfree Hfree'. cbn [load_armor_database].
  rewrite !getline_all_first by assumption.
  reflexivity.
Qed.

Lemma load_armor_database_header_witness :
  delimiter_free "010"%char "name^gold^defense"
  /\ delimiter_free "010"%char "no header at all"
  /\ load_armor_database read_unsigned
       (Some ("name^gold^defense" ++ String "010"%char "helmet^10^60")%string)
     = load_armor_database read_unsigned
         (Some ("no header at all" ++ String "010"%char "helmet^10^60")%string).
Proof.
  assert (H1 : delimiter_free "010"%char "name^gold^defense")
    by (simpl; repeat split; discriminate).
  assert (H2 : delimiter_free "010"%char "no header at all")
    by (simpl; repeat split; discriminate).
  split; [exact H1|]. split; [exact H2|].
  exact (load_armor_database_header read_unsigned _ _ "helmet^10^60" H1 H2).
Defined.

(** ** sum_armor_vector on constructed items *)



(** * Properties on IEEE 754 doubles *)

(** ** The comparisons of doubles *)

Lemma SFltb_irrefl (x : spec_float) : SFltb x x = false.
Proof.
  unfold SFltb. destruct x as [s|s| |s m e]; simpl; try reflexivity.
  - destruct s; reflexivity.
  - destruct s; rewrite Z.compare_refl, Pos.compare_cont_refl; reflexivity.
Qed.

Ltac sf_cases :=
  repeat match goal with
  | s : bool |- _ => destruct s
  end;
  simpl; try discriminate; try reflexivity;
  repeat match goal with
  | |- context [Z.compare ?a ?b] => destruct (Z.compare_spec a b)
  | |- context [Pos.compare_cont Eq ?a ?b] =>
      change (Pos.compare_cont Eq a b) with (Pos.compare a b);
      destruct (Pos.compare_spec a b)
  end;
  simpl; try discriminate; try reflexivity; try lia.

Lemma SFltb_trans (x y z : spec_float) :
  SFltb x y = true -> SFltb y z = true -> SFltb x z = true.
Proof.
  unfold SFltb.
  destruct x as [sx|sx| |sx mx ex], y as [sy|sy| |sy my ey], z as [sz|sz| |sz mz ez];
    sf_cases.
Qed.

Lemma SFltb_SFleb_trans (x y z : spec_float) :
  SFltb x y = true -> SFleb y z = true -> SFltb x z = true.
Proof.
  unfold SFltb, SFleb.
  destruct x as [sx|sx| |sx mx ex], y as [sy|sy| |sy my ey], z as [sz|sz| |sz mz ez];
    sf_cases.
Qed.

Lemma float_ltb_irrefl (x : float) : (x <? x)%float = false.
Proof. rewrite ltb_spec. apply SFltb_irrefl. Qed.

Lemma float_ltb_trans (x y z : float) :
  (x <? y)%float = true -> (y <? z)%float = true -> (x <? z)%float = true.
Proof. rewrite !ltb_spec. apply SFltb_trans. Qed.

Lemma float_ltb_leb_trans (x y z : float) :
  (x <? y)%float = true -> (y <=? z)%float = true -> (x <? z)%float = true.
Proof. rewrite !ltb_spec, leb_spec. apply SFltb_SFleb_trans. Qed.

Lemma float_ltb_leb (x y : float) : (x <? y)%float = true -> (x <=? y)%float = true.
Proof.
  rewrite ltb_spec, leb_spec. unfold SFltb, SFleb.
  destruct (SFcompare (Prim2SF x) (Prim2SF y)) as [[| |]|]; congruence.
Qed.

(** Above a smaller double nothing is below or equal to it. *)
Lemma float_ltb_not_ltb (x y z : float) :
  (x <? y)%float = true -> (x <? z)%float = false -> (y <? z)%float = false.
Proof.
  intros Hxy Hxz. destruct (y <? z)%float eqn:Hyz; [|reflexivity].
  rewrite (float_ltb_trans x y z Hxy Hyz) in Hxz. discriminate.
Qed.

Lemma float_ltb_not_leb (x y z : float) :
  (x <? y)%float = true -> (x <? z)%float = false -> (y <=? z)%float = false.
Proof.
  intros Hxy Hxz. destruct (y <=? z)%float eqn:Hyz; [|reflexivity].
  rewrite (float_ltb_leb_trans x y z Hxy Hyz) in Hxz. discriminate.
Qed.

(** Adding to 0.0 a double above 0 gives that double. *)
Lemma float_add_zero_l (x : float) : (0 <? x)%float = true -> (0 + x)%float = x.
Proof.
  rewrite ltb_spec. intros Hx. apply Prim2SF_inj. rewrite add_spec.
  change (Prim2SF 0) with (S754_zero false) in *.
  destruct (Prim2SF x) as [s|s| |s m e]; try discriminate; reflexivity.
Qed.

Lemma float_leb_refl (x : float) : (0 <? x)%float = true -> (x <=? x)%float = true.
Proof.
  rewrite ltb_spec, leb_spec. change (Prim2SF 0) with (S754_zero false).
  unfold SFltb, SFleb.
  destruct (Prim2SF x) as [s|s| |s m e]; simpl; try discriminate.
  - destruct s; [discriminate | reflexivity].
  - destruct s; [discriminate|]. intros _.
    now rewrite Z.compare_refl, Pos.compare_cont_refl.
Qed.

(** ** Sums of doubles *)

Lemma ieee_sum_push_back (v : IEEE.ArmorVector) (a : IEEE.ArmorItem) :
  IEEE.sum_armor_vector (push_back v a)
  = ((IEEE.total_cost_of v + IEEE.cost a)%float,
     (IEEE.total_defense_of v + IEEE.defense a)%float).
Proof.
  unfold IEEE.sum_armor_vector, IEEE.total_cost_of, IEEE.total_defense_of,
    IEEE.sum_armor_vector, push_back.
  now rewrite fold_left_app.
Qed.

Lemma ieee_total_cost_push_back (v : IEEE.ArmorVector) (a : IEEE.ArmorItem) :
  IEEE.total_cost_of (push_back v a) = (IEEE.total_cost_of v + IEEE.cost a)%float.
Proof. unfold IEEE.total_cost_of at 1. now rewrite ieee_sum_push_back. Qed.

(** ** greedy_max_defense on doubles: the scan of one round *)

Section IeeeScan.
Variables result_cost total_cost : float.

Lemma ieee_scan_inv_step (seen : IEEE.ArmorVector) (armor : IEEE.ArmorItem)
    (s : IEEE.scan_state) :
  IEEE.scan_inv result_cost total_cost seen s ->
  IEEE.scan_inv result_cost total_cost (seen ++ [armor])
    (if (result_cost + IEEE.cost armor <=? total_cost)%float then
       if (IEEE.max_armor_value s <? IEEE.defense armor / IEEE.cost armor)%float
       then IEEE.mkScan (Z.of_nat (length seen)) armor
                        (IEEE.defense armor / IEEE.cost armor)%float
       else s
     else s).
Proof.
  intros Hinv.
  destruct (result_cost + IEEE.cost armor <=? total_cost)%float eqn:Hfit.
  - destruct (IEEE.max_armor_value s <? IEEE.defense armor / IEEE.cost armor)%float
      eqn:Hgt.
    + (* the item becomes the best so far *)
      fold (IEEE.efficiency armor) in *.
      assert (Hpos : (0 <? IEEE.efficiency armor)%float = true).
      { destruct Hinv as [(_ & Hval & _) | (k & _ & _ & Hval & [_ Hsel] & _)].
        - now rewrite Hval in Hgt.
        - rewrite Hval in Hgt. eapply float_ltb_trans; eassumption. }
      assert (Hold : forall j a, seen !! j = Some a -> IEEE.fits result_cost total_cost a ->
                       (IEEE.max_armor_value s <? IEEE.efficiency a)%float = false).
      { intros j a Hj Ha.
        destruct Hinv as [(_ & Hval & Hnone) | (k & _ & _ & Hval & _ & Hmax & _)].
        - rewrite Hval. apply not_true_iff_false. intros Hlt.
          apply (Hnone a); [eapply list_elem_of_lookup_2; eassumption | split; assumption].
        - rewrite Hval. eapply Hmax; eassumption. }
      right. exists (length seen). cbn [IEEE.max_armor_index IEEE.max_armor IEEE.max_armor_value].
      split; [reflexivity|].
      split; [now rewrite lookup_app_r, Nat.sub_diag by lia|].
      split; [reflexivity|].
      split; [split; [exact Hfit | exact Hpos]|].
      split.
      * intros j a Hj Ha. apply lookup_app_Some in Hj as [Hj | [_ Hj]].
        -- eapply float_ltb_not_ltb; [exact Hgt | eapply Hold; eassumption].
        -- apply list_lookup_singleton_Some in Hj as [_ <-]. apply float_ltb_irrefl.
      * intros j a Hlt Hj Ha. rewrite lookup_app_l in Hj by assumption.
        eapply float_ltb_not_leb; [exact Hgt | eapply Hold; eassumption].
    + (* the item fits but does not beat the best so far *)
      fold (IEEE.efficiency armor) in *.
      destruct Hinv as [(Hidx & Hval & Hnone) | (k & Hidx & Hk & Hval & Hsel & Hmax & Hfirst)].
      * left. repeat split; try assumption.
        intros a Ha [Hfa Hpos]. apply elem_of_app in Ha as [Ha | Ha].
        -- apply (Hnone a Ha). split; assumption.
        -- apply list_elem_of_singleton in Ha. subst a.
           rewrite Hval in Hgt. congruence.
      * right. exists k. repeat split; try assumption; try apply Hsel.
        -- apply lookup_app_l_Some. assumption.
        -- intros j a Hj Ha. apply lookup_app_Some in Hj as [Hj | [_ Hj]].
           ++ eapply Hmax; eassumption.
           ++ apply list_lookup_singleton_Some in Hj as [_ <-].
              now rewrite <- Hval.
        -- intros j a Hlt Hj Ha.
           apply lookup_lt_Some in Hk.
           rewrite lookup_app_l in Hj by lia.
           eapply Hfirst; eassumption.
  - (* the item does not fit *)
    assert (Hno : ~ IEEE.fits result_cost total_cost armor)
      by (unfold IEEE.fits; congruence).
    destruct Hinv as [(Hidx & Hval & Hnone) | (k & Hidx & Hk & Hval & Hsel & Hmax & Hfirst)].
    + left. repeat split; try assumption.
      intros a Ha [Hfa Hpos]. apply elem_of_app in Ha as [Ha | Ha].
      * apply (Hnone a Ha). split; assumption.
      * apply list_elem_of_singleton in Ha. subst a. exact (Hno Hfa).
    + right. exists k. repeat split; try assumption; try apply Hsel.
      * apply lookup_app_l_Some. assumption.
      * intros j a Hj Ha. apply lookup_app_Some in Hj as [Hj | [_ Hj]].
        -- eapply Hmax; eassumption.
        -- apply list_lookup_singleton_Some in Hj as [_ <-]. contradiction.
      * intros j a Hlt Hj Ha.
        apply lookup_lt_Some in Hk.
        rewrite lookup_app_l in Hj by lia.
        eapply Hfirst; eassumption.
Qed.
End IeeeScan.

Lemma ieee_scan_spec (result_cost total_cost : float) (pool : IEEE.ArmorVector) :
  forall (seen : IEEE.ArmorVector) (s : IEEE.scan_state),
    IEEE.scan_inv result_cost total_cost seen s ->
    IEEE.scan_inv result_cost total_cost (seen ++ pool)
      (IEEE.scan pool (Z.of_nat (length seen)) result_cost total_cost s).
Proof.
  induction pool as [|armor pool IH]; intros seen s Hinv; simpl.
  - now rewrite app_nil_r.
  - replace (Z.of_nat (length seen) + 1) with (Z.of_nat (length (seen ++ [armor])))
      by (rewrite length_app; simpl; lia).
    rewrite (cons_middle armor seen pool), app_assoc.
    apply IH, ieee_scan_inv_step, Hinv.
Qed.

Lemma ieee_scan_todo (result_cost total_cost : float) (pool : IEEE.ArmorVector)
    (first : IEEE.ArmorItem) :
  IEEE.scan_inv result_cost total_cost pool
    (IEEE.scan pool 0 result_cost total_cost
       (IEEE.mkScan (size_of_int (-1)) first 0%float)).
Proof.
  apply (ieee_scan_spec result_cost total_cost pool []).
  left. simpl. repeat split.
  intros a Ha. apply elem_of_nil in Ha. contradiction.
Qed.

(** ** greedy_max_defense on doubles: one round *)

Lemma ieee_greedy_round_Some (total_cost : float) (st st' : IEEE.greedy_state) :
  IEEE.greedy_round total_cost st = Some st' ->
  exists (k : nat) (a : IEEE.ArmorItem),
    IEEE.todo st !! k = Some a
    /\ IEEE.selectable (IEEE.result_cost st) total_cost a
    /\ (forall j a', IEEE.todo st !! j = Some a' ->
          IEEE.fits (IEEE.result_cost st) total_cost a' ->
          (IEEE.efficiency a <? IEEE.efficiency a')%float = false)
    /\ (forall j a', (j < k)%nat -> IEEE.todo st !! j = Some a' ->
          IEEE.fits (IEEE.result_cost st) total_cost a' ->
          (IEEE.efficiency a <=? IEEE.efficiency a')%float = false)
    /\ st' = IEEE.mkGreedy (IEEE.g_armors st) (erase (IEEE.todo st) k)
               (push_back (IEEE.result st) a)
               (IEEE.result_cost st + IEEE.cost a)%float.
Proof.
  unfold IEEE.greedy_round.
  destruct (IEEE.todo st) as [|first rest] eqn:Htodo; [discriminate|].
  pose proof (ieee_scan_todo (IEEE.result_cost st) total_cost (first :: rest) first) as Hinv.
  remember (IEEE.scan (first :: rest) 0 (IEEE.result_cost st) total_cost
              (IEEE.mkScan (size_of_int (-1)) first 0%float)) as s eqn:Hs.
  clear Hs. cbv zeta.
  destruct (Z.eqb_spec (IEEE.max_armor_index s) (size_of_int (-1))) as [Heq|Hne];
    [discriminate|].
  intros Hst'. apply (inj Some) in Hst'. subst st'.
  destruct Hinv as [(Hidx & _) | (k & Hidx & Hk & _ & Hsel & Hmax & Hfirst)];
    [contradiction|].
  exists k, (IEEE.max_armor s).
  split; [exact Hk|]. split; [exact Hsel|]. split; [exact Hmax|]. split; [exact Hfirst|].
  now rewrite Hidx, Nat2Z.id.
Qed.

Lemma ieee_greedy_round_None (total_cost : float) (st : IEEE.greedy_state) :
  Z.of_nat (length (IEEE.todo st)) < 2 ^ 64 ->
  IEEE.greedy_round total_cost st = None ->
  forall a, a ∈ IEEE.todo st -> ~ IEEE.selectable (IEEE.result_cost st) total_cost a.
Proof.
  unfold IEEE.greedy_round. intros Hlen.
  destruct (IEEE.todo st) as [|first rest] eqn:Htodo.
  - intros _ a Ha. apply elem_of_nil in Ha. contradiction.
  - pose proof (ieee_scan_todo (IEEE.result_cost st) total_cost (first :: rest) first) as Hinv.
    remember (IEEE.scan (first :: rest) 0 (IEEE.result_cost st) total_cost
                (IEEE.mkScan (size_of_int (-1)) first 0%float)) as s eqn:Hs.
    clear Hs. cbv zeta.
    destruct (Z.eqb_spec (IEEE.max_armor_index s) (size_of_int (-1))) as [Heq|Hne];
      [|discriminate].
    intros _.
    destruct Hinv as [(_ & _ & Hnone) | (k & Hidx & Hk & _)]; [exact Hnone|].
    apply lookup_lt_Some in Hk. rewrite Hidx in Heq.
    change (size_of_int (-1)) with (2 ^ 64 - 1) in Heq. lia.
Qed.

Lemma ieee_greedy_round_progress (total_cost : float) (st : IEEE.greedy_state)
    (a : IEEE.ArmorItem) :
  Z.of_nat (length (IEEE.todo st)) < 2 ^ 64 ->
  a ∈ IEEE.todo st -> IEEE.selectable (IEEE.result_cost st) total_cost a ->
  exists st', IEEE.greedy_round total_cost st = Some st'.
Proof.
  intros Hlen Ha Hsel.
  destruct (IEEE.greedy_round total_cost st) as [st'|] eqn:Hround; [now exists st'|].
  exfalso. exact (ieee_greedy_round_None total_cost st Hlen Hround a Ha Hsel).
Qed.

(** ** greedy_max_defense on doubles: the loop *)

Lemma ieee_greedy_inv_init (armors : IEEE.ArmorVector) (total_cost : float) :
  IEEE.greedy_inv armors total_cost (IEEE.mkGreedy armors armors [] 0%float).
Proof.
  unfold IEEE.greedy_inv. simpl. repeat split; [lia | now left].
Qed.

Lemma ieee_greedy_round_todo_length (total_cost : float) (st st' : IEEE.greedy_state) :
  IEEE.greedy_round total_cost st = Some st' ->
  length (IEEE.todo st) = S (length (IEEE.todo st')).
Proof.
  intros Hround.
  apply ieee_greedy_round_Some in Hround as (k & a & Hk & _ & _ & _ & ->). simpl.
  rewrite erase_delete.
  pose proof (delete_Permutation _ _ _ Hk) as Hperm.
  apply Permutation_length in Hperm. exact Hperm.
Qed.

Lemma ieee_greedy_inv_round (armors : IEEE.ArmorVector) (total_cost : float)
    (st st' : IEEE.greedy_state) :
  IEEE.greedy_inv armors total_cost st ->
  IEEE.greedy_round total_cost st = Some st' ->
  IEEE.greedy_inv armors total_cost st'.
Proof.
  intros (Harm & Hlen & Hcost & Hfeas) Hround.
  pose proof (ieee_greedy_round_todo_length _ _ _ Hround) as Hlen'.
  apply ieee_greedy_round_Some in Hround as (k & a & Hk & [Hfit _] & _ & _ & ->).
  unfold IEEE.greedy_inv. cbn [IEEE.g_armors IEEE.todo IEEE.result IEEE.result_cost] in *.
  split; [exact Harm|]. split; [lia|]. split.
  - now rewrite ieee_total_cost_push_back, Hcost.
  - right. unfold IEEE.feasible. rewrite ieee_total_cost_push_back, <- Hcost. exact Hfit.
Qed.

Lemma ieee_greedy_inv_loop (armors : IEEE.ArmorVector) (total_cost : float) (fuel : nat) :
  forall st, IEEE.greedy_inv armors total_cost st ->
             IEEE.greedy_inv armors total_cost (IEEE.greedy_loop fuel total_cost st).
Proof.
  induction fuel as [|fuel IH]; intros st Hinv; simpl; [exact Hinv|].
  destruct (IEEE.greedy_round total_cost st) as [st'|] eqn:Hround; [|exact Hinv].
  apply IH. eapply ieee_greedy_inv_round; eassumption.
Qed.

(** The loop stops by itself within [length todo] rounds. *)
Lemma ieee_greedy_loop_fuel_enough (total_cost : float) (fuel : nat) :
  forall (st : IEEE.greedy_state) (extra : nat),
    (length (IEEE.todo st) <= fuel)%nat ->
    IEEE.greedy_loop (fuel + extra) total_cost st = IEEE.greedy_loop fuel total_cost st.
Proof.
  induction fuel as [|fuel IH]; intros st extra Hlen.
  - destruct (IEEE.todo st) as [|first rest] eqn:Htodo; [|simpl in Hlen; lia].
    destruct extra as [|extra]; simpl; [reflexivity|].
    unfold IEEE.greedy_round. now rewrite Htodo.
  - simpl. destruct (IEEE.greedy_round total_cost st) as [st'|] eqn:Hround; [|reflexivity].
    apply IH. apply ieee_greedy_round_todo_length in Hround. lia.
Qed.

Lemma ieee_greedy_loop_final (total_cost : float) (fuel : nat) :
  forall st : IEEE.greedy_state,
    (length (IEEE.todo st) <= fuel)%nat ->
    IEEE.greedy_round total_cost (IEEE.greedy_loop fuel total_cost st) = None.
Proof.
  induction fuel as [|fuel IH]; intros st Hlen; simpl.
  - destruct (IEEE.todo st) as [|first rest] eqn:Htodo; [|simpl in Hlen; lia].
    unfold IEEE.greedy_round. now rewrite Htodo.
  - destruct (IEEE.greedy_round total_cost st) as [st'|] eqn:Hround; [|exact Hround].
    apply IH. apply ieee_greedy_round_todo_length in Hround. lia.
Qed.

Lemma ieee_greedy_loop_result_length (total_cost : float) (fuel : nat) :
  forall st : IEEE.greedy_state,
    (length (IEEE.result st)
     <= length (IEEE.result (IEEE.greedy_loop fuel total_cost st)))%nat.
Proof.
  induction fuel as [|fuel IH]; intros st; simpl; [lia|].
  destruct (IEEE.greedy_round total_cost st) as [st'|] eqn:Hround; [|lia].
  apply ieee_greedy_round_Some in Hround as (k & a & _ & _ & _ & _ & ->).
  etransitivity; [|apply IH].
  cbn [IEEE.result]. unfold push_back. rewrite length_app. lia.
Qed.

Lemma ieee_greedy_run_inv (armors : IEEE.ArmorVector) (total_cost : float) :
  IEEE.greedy_inv armors total_cost (IEEE.greedy_run armors total_cost).
Proof. apply ieee_greedy_inv_loop, ieee_greedy_inv_init. Qed.

Lemma ieee_feasible_nil (total_cost : float) :
  (0 <=? total_cost)%float = true -> IEEE.feasible total_cost [].
Proof. intros Hb. exact Hb. Qed.

Lemma ieee_greedy_max_defense_feasible (armors : IEEE.ArmorVector) (total_cost : float) :
  (0 <=? total_cost)%float = true ->
  IEEE.feasible total_cost (IEEE.greedy_max_defense armors total_cost).
Proof.
  intros Hb.
  destruct (ieee_greedy_run_inv armors total_cost) as (_ & _ & _ & [Hnil | Hle]).
  - unfold IEEE.greedy_max_defense. rewrite Hnil. apply ieee_feasible_nil, Hb.
  - exact Hle.
Qed.

(** ** exhaustive_max_defense on doubles: the candidate of a mask *)

Lemma ieee_select_from_app (v w : IEEE.ArmorVector) (bits : Z) :
  forall j : nat,
    IEEE.select_from j (v ++ w) bits
    = IEEE.select_from j v bits ++ IEEE.select_from (j + length v) w bits.
Proof.
  induction v as [|a v IH]; intros j; simpl.
  - now rewrite Nat.add_0_r.
  - rewrite IH. replace (S j + length v)%nat with (j + S (length v))%nat by lia.
    now destruct (Z.testbit bits (Z.of_nat j)).
Qed.

Lemma ieee_select_from_sublist (v : IEEE.ArmorVector) (bits : Z) :
  forall j : nat, IEEE.select_from j v bits `sublist_of` v.
Proof.
  induction v as [|a v IH]; intros j; simpl.
  - constructor.
  - destruct (Z.testbit bits (Z.of_nat j)).
    + apply sublist_skip, IH.
    + apply sublist_cons, IH.
Qed.

Lemma ieee_build_candidates_select (armors : IEEE.ArmorVector) (n bits : Z) :
  IEEE.build_candidates armors n bits
  = IEEE.select_from 0 (take (Z.to_nat n) armors) bits.
Proof.
  unfold IEEE.build_candidates. generalize (Z.to_nat n) as k. intros k.
  induction k as [|k IH].
  - reflexivity.
  - rewrite seq_S, fold_left_app, IH. simpl.
    unfold IEEE.inner_step. rewrite bit_test_testbit.
    destruct (armors !! k) as [a|] eqn:Hk.
    + rewrite (take_S_r _ _ _ Hk), ieee_select_from_app. simpl.
      rewrite length_take_le by (apply lookup_lt_Some in Hk; lia).
      unfold push_back.
      destruct (Z.testbit bits (Z.of_nat k)); [reflexivity | now rewrite app_nil_r].
    + apply lookup_ge_None in Hk.
      rewrite !take_ge by lia.
      now destruct (Z.testbit bits (Z.of_nat k)).
Qed.

Lemma ieee_build_candidates_sublist (armors : IEEE.ArmorVector) (n bits : Z) :
  IEEE.build_candidates armors n bits `sublist_of` armors.
Proof.
  rewrite ieee_build_candidates_select.
  transitivity (take (Z.to_nat n) armors).
  - apply ieee_select_from_sublist.
  - apply sublist_take.
Qed.

Lemma ieee_build_candidates_full (armors : IEEE.ArmorVector) (bits : Z) :
  IEEE.build_candidates armors (Z.of_nat (length armors)) bits
  = IEEE.select_from 0 armors bits.
Proof.
  rewrite ieee_build_candidates_select, Nat2Z.id, take_ge by lia. reflexivity.
Qed.

Lemma ieee_select_from_shift (v : IEEE.ArmorVector) (m : Z) (b : bool) :
  forall j : nat,
    IEEE.select_from (S j) v (2 * m + Z.b2z b) = IEEE.select_from j v m.
Proof.
  induction v as [|a v IH]; intros j; cbn [IEEE.select_from]; [reflexivity|].
  rewrite IH, Nat2Z.inj_succ, Z.testbit_succ_r by lia.
  reflexivity.
Qed.

(** Every sub-sequence of a vector is the selection of some mask below
    [2^size]. *)
Lemma ieee_sublist_select (s v : IEEE.ArmorVector) :
  s `sublist_of` v ->
  exists m, 0 <= m < 2 ^ Z.of_nat (length v) /\ IEEE.select_from 0 v m = s.
Proof.
  induction 1 as [|a s v _ (m & Hm & IH)|a s v _ (m & Hm & IH)].
  - exists 0. simpl. split; [lia | reflexivity].
  - exists (2 * m + Z.b2z true). split.
    + rewrite length_cons, Nat2Z.inj_succ, Z.pow_succ_r by lia. simpl. lia.
    + cbn [IEEE.select_from]. rewrite Z.testbit_0_r, ieee_select_from_shift, IH.
      reflexivity.
  - exists (2 * m + Z.b2z false). split.
    + rewrite length_cons, Nat2Z.inj_succ, Z.pow_succ_r by lia. simpl. lia.
    + cbn [IEEE.select_from]. rewrite Z.testbit_0_r, ieee_select_from_shift, IH.
      reflexivity.
Qed.

(** ** exhaustive_max_defense on doubles: the loop over the masks *)

Lemma ieee_exhaustive_inv_init (armors : IEEE.ArmorVector) (total_cost : float) (n : Z) :
  IEEE.exhaustive_inv armors total_cost n 0
    (IEEE.mkExhaustive armors 0%float 0%float 0%float [] [] false).
Proof.
  unfold IEEE.exhaustive_inv. simpl. split; [reflexivity|]. split.
  - intros _. split; [reflexivity|]. intros m Hm. lia.
  - discriminate.
Qed.

Lemma ieee_exhaustive_inv_body (armors : IEEE.ArmorVector) (total_cost : float)
    (n done : Z) (st : IEEE.exhaustive_state) :
  0 <= done ->
  IEEE.exhaustive_inv armors total_cost n done st ->
  IEEE.exhaustive_inv armors total_cost n (done + 1)
    (IEEE.exhaustive_body total_cost n done st).
Proof.
  intros Hdone (Harm & Hnone & Hsome).
  unfold IEEE.exhaustive_body. rewrite Harm.
  fold (IEEE.total_cost_of (IEEE.build_candidates armors n done)).
  fold (IEEE.total_defense_of (IEEE.build_candidates armors n done)).
  set (cand := IEEE.build_candidates armors n done) in *.
  assert (Hkeep : ~ IEEE.feasible total_cost cand \/
                  (IEEE.flag st = true
                   /\ (IEEE.best_defense st <? IEEE.total_defense_of cand)%float = false) ->
                  IEEE.exhaustive_inv armors total_cost n (done + 1)
                    (IEEE.mkExhaustive armors (IEEE.total_cost_of cand)
                       (IEEE.total_defense_of cand) (IEEE.best_defense st)
                       (IEEE.bestVector st) cand (IEEE.flag st))).
  { intros Hcase. unfold IEEE.exhaustive_inv. simpl. split; [reflexivity|]. split.
    - intros Hflag. destruct (Hnone Hflag) as [Hbest Hinf]. split; [exact Hbest|].
      intros m Hm. destruct (Z.eq_dec m done) as [->|Hne].
      + destruct Hcase as [Hcase | [Hcase _]]; [exact Hcase | congruence].
      + apply Hinf. lia.
    - intros Hflag.
      destruct (Hsome Hflag) as (m & Hm & Hbest & Hdef & Hfeas & Hmax & Hfirst).
      exists m. split; [lia|]. repeat split; try assumption.
      intros m' Hm' Hfeas'. destruct (Z.eq_dec m' done) as [->|Hne].
      + destruct Hcase as [Hcase | [_ Hcase]]; [contradiction|].
        now rewrite <- Hdef.
      + apply Hmax; [lia | assumption]. }
  destruct (IEEE.total_cost_of cand <=? total_cost)%float eqn:Hfit.
  - destruct (IEEE.flag st) eqn:Hflag; simpl.
    + destruct (IEEE.best_defense st <? IEEE.total_defense_of cand)%float eqn:Hgt.
      * (* a feasible candidate of greater defense replaces the stored one *)
        destruct (Hsome eq_refl) as (m & Hm & Hbest & Hdef & Hfeas & Hmax & Hfirst).
        unfold IEEE.exhaustive_inv. simpl. split; [reflexivity|].
        split; [discriminate|]. intros _.
        exists done. split; [lia|]. repeat split; try assumption.
        -- intros m' Hm' Hfeas'. destruct (Z.eq_dec m' done) as [->|Hne];
             [apply float_ltb_irrefl|].
           eapply float_ltb_not_ltb; [exact Hgt|].
           rewrite Hdef. apply Hmax; [lia | assumption].
        -- intros m' Hm' Hfeas'.
           eapply float_ltb_not_leb; [exact Hgt|].
           rewrite Hdef. apply Hmax; [lia | assumption].
      * apply Hkeep. right. now split.
    + (* the first feasible candidate is stored whatever its defense *)
      destruct (Hnone eq_refl) as [_ Hinf].
      unfold IEEE.exhaustive_inv. simpl. split; [reflexivity|].
      split; [discriminate|]. intros _.
      exists done. split; [lia|]. repeat split; try assumption.
      * intros m' Hm' Hfeas'. destruct (Z.eq_dec m' done) as [->|Hne];
          [apply float_ltb_irrefl|].
        exfalso. apply (Hinf m'); [lia | assumption].
      * intros m' Hm' Hfeas'. exfalso. apply (Hinf m'); [lia | assumption].
  - apply Hkeep. left. unfold IEEE.feasible. congruence.
Qed.

Lemma ieee_exhaustive_inv_loop (armors : IEEE.ArmorVector) (total_cost : float) (n : Z)
    (fuel : nat) :
  forall (done : Z) (st : IEEE.exhaustive_state),
    0 <= done -> done + Z.of_nat fuel < 2 ^ 64 ->
    IEEE.exhaustive_inv armors total_cost n done st ->
    exists last,
      done <= last <= done + Z.of_nat fuel
      /\ (forall m, done <= m < last -> loop_guard m n = true)
      /\ (last < done + Z.of_nat fuel -> loop_guard last n = false)
      /\ IEEE.exhaustive_inv armors total_cost n last
           (IEEE.exhaustive_loop fuel total_cost n done st).
Proof.
  induction fuel as [|fuel IH]; intros done st Hdone Hfuel Hinv.
  - exists done. simpl. split; [lia|]. split; [intros m Hm; lia|]. split; [lia | exact Hinv].
  - cbn [IEEE.exhaustive_loop]. destruct (loop_guard done n) eqn:Hguard.
    + rewrite Z.mod_small by lia.
      destruct (IH (done + 1) (IEEE.exhaustive_body total_cost n done st))
        as (last & Hlast & Htrue & Hfalse & Hinv'); [lia | lia | |].
      { apply ieee_exhaustive_inv_body; assumption. }
      exists last. split; [lia|]. split; [|split; [|exact Hinv']].
      * intros m Hm. destruct (Z.eq_dec m done) as [->|Hne]; [exact Hguard|].
        apply Htrue. lia.
      * intros Hlt. apply Hfalse. lia.
    + exists done. split; [lia|]. split; [intros m Hm; lia|].
      split; [intros _; exact Hguard | exact Hinv].
Qed.

(** The fuel of the run is no cut-off: the loop ends on its guard. *)
Lemma ieee_exhaustive_loop_fuel_enough (total_cost : float) (n : Z) (fuel : nat) :
  forall (done : Z) (st : IEEE.exhaustive_state) (extra : nat),
    0 <= done -> done + Z.of_nat fuel < 2 ^ 64 ->
    loop_guard (done + Z.of_nat fuel) n = false ->
    IEEE.exhaustive_loop (fuel + extra) total_cost n done st
    = IEEE.exhaustive_loop fuel total_cost n done st.
Proof.
  induction fuel as [|fuel IH]; intros done st extra Hdone Hfuel Hguard.
  - rewrite Z.add_0_r in Hguard.
    destruct extra as [|extra]; simpl; [reflexivity|]. now rewrite Hguard.
  - cbn [IEEE.exhaustive_loop Nat.add]. destruct (loop_guard done n); [|reflexivity].
    rewrite Z.mod_small by lia.
    apply IH; [lia | lia |].
    replace (done + 1 + Z.of_nat fuel) with (done + Z.of_nat (S fuel)) by lia.
    exact Hguard.
Qed.

Lemma ieee_exhaustive_run_spec (armors : IEEE.ArmorVector) (total_cost : float)
    (st : IEEE.exhaustive_state) :
  IEEE.exhaustive_run armors total_cost = Some st ->
  let n := int_of_size (Z.of_nat (length armors)) in
  n < 64
  /\ exists last,
       0 <= last <= 2 ^ Z.max n 0
       /\ (forall m, 0 <= m < last -> loop_guard m n = true)
       /\ loop_guard last n = false
       /\ IEEE.exhaustive_inv armors total_cost n last st.
Proof.
  intros Hrun n. unfold IEEE.exhaustive_run in Hrun. fold n in Hrun.
  destruct (Z.ltb_spec n 64) as [Hn|Hn]; [|discriminate].
  apply (inj Some) in Hrun. subst st. split; [exact Hn|].
  pose proof (exhaustive_fuel_bound n Hn) as Hbound.
  destruct (ieee_exhaustive_inv_loop armors total_cost n (exhaustive_fuel n) 0
              (IEEE.mkExhaustive armors 0%float 0%float 0%float [] [] false))
    as (last & Hlast & Htrue & Hfalse & Hinv);
    [lia | lia | apply ieee_exhaustive_inv_init |].
  exists last. rewrite <- exhaustive_fuel_Z.
  split; [lia|]. split; [exact Htrue|]. split; [|exact Hinv].
  destruct (Z.eq_dec last (Z.of_nat (exhaustive_fuel n))) as [->|Hne].
  - apply exhaustive_guard_at_fuel, Hn.
  - apply Hfalse. lia.
Qed.

Lemma ieee_exhaustive_max_defense_Some (armors : IEEE.ArmorVector) (total_cost : float)
    (s : IEEE.ArmorVector) :
  IEEE.exhaustive_max_defense armors total_cost = Some s ->
  exists st, IEEE.exhaustive_run armors total_cost = Some st /\ IEEE.bestVector st = s.
Proof.
  unfold IEEE.exhaustive_max_defense.
  destruct (IEEE.exhaustive_run armors total_cost) as [st|]; simpl; [|discriminate].
  intros Hs. apply (inj Some) in Hs. now exists st.
Qed.

Lemma ieee_exhaustive_max_defense_returns (armors : IEEE.ArmorVector) (total_cost : float) :
  (length armors < 64)%nat ->
  exists s, IEEE.exhaustive_max_defense armors total_cost = Some s.
Proof.
  intros Hlen. unfold IEEE.exhaustive_max_defense, IEEE.exhaustive_run.
  rewrite int_of_size_small by lia.
  destruct (Z.ltb_spec (Z.of_nat (length armors)) 64); [|lia].
  eexists. reflexivity.
Qed.

(** The returned vector is the candidate of a tried mask whose computed cost
    is within the budget, or the empty vector the function starts with. *)
Lemma ieee_exhaustive_max_defense_candidate (armors : IEEE.ArmorVector)
    (total_cost : float) (s : IEEE.ArmorVector) :
  IEEE.exhaustive_max_defense armors total_cost = Some s ->
  s = []
  \/ exists m, 0 <= m
       /\ IEEE.feasible total_cost s
       /\ s = IEEE.build_candidates armors (int_of_size (Z.of_nat (length armors))) m.
Proof.
  intros Hs. apply ieee_exhaustive_max_defense_Some in Hs as (st & Hrun & <-).
  apply ieee_exhaustive_run_spec in Hrun
    as (_ & last & Hlast & Htrue & _ & (_ & Hnone & Hsome)).
  destruct (IEEE.flag st) eqn:Hflag.
  - right. destruct (Hsome eq_refl) as (m & Hm & Hbest & _ & Hfeas & _).
    exists m. split; [lia|]. rewrite Hbest. split; [exact Hfeas | reflexivity].
  - left. apply Hnone. reflexivity.
Qed.

Lemma ieee_exhaustive_max_defense_sublist (armors s : IEEE.ArmorVector)
    (total_cost : float) :
  IEEE.exhaustive_max_defense armors total_cost = Some s -> s `sublist_of` armors.
Proof.
  intros Hs. apply ieee_exhaustive_max_defense_candidate in Hs as [-> | (m & _ & _ & ->)].
  - apply sublist_nil_l.
  - apply ieee_build_candidates_sublist.
Qed.

(** Up to 53 items the loop tries every mask below [2^n]. *)
Lemma ieee_exhaustive_run_all_masks (armors : IEEE.ArmorVector) (total_cost : float)
    (st : IEEE.exhaustive_state) :
  (length armors <= 53)%nat ->
  IEEE.exhaustive_run armors total_cost = Some st ->
  IEEE.exhaustive_inv armors total_cost (Z.of_nat (length armors))
    (2 ^ Z.of_nat (length armors)) st.
Proof.
  intros Hlen Hrun.
  apply ieee_exhaustive_run_spec in Hrun as (_ & last & Hlast & _ & Hfalse & Hinv).
  rewrite int_of_size_small in * by lia.
  rewrite Z.max_l in Hlast by lia.
  destruct (Z.eq_dec last (2 ^ Z.of_nat (length armors))) as [<-|Hne]; [exact Hinv|].
  rewrite loop_guard_small in Hfalse by lia. discriminate.
Qed.

(** ** Feasibility of the returned solutions *)

(** C2 (as stated): with the negative budget -1 both solvers return the empty
    vector, whose cost 0 is above the budget; and with the budget 2^53 and
    the items of cost 2^53 and 1 both solvers return the two items, whose
    costs add up to 2^53 + 1, above the budget: the sum of the doubles is
    rounded to 2^53. *)
Lemma ieee_budget_exceeded :
  (~ IEEE.feasible (-1) (IEEE.greedy_max_defense [IEEE.unit_armor] (-1))
   /\ exists s, IEEE.exhaustive_max_defense [IEEE.unit_armor] (-1) = Some s
                /\ ~ IEEE.feasible (-1) s)
  /\ (IEEE.greedy_max_defense [IEEE.heavy_armor; IEEE.unit_armor] 0x1p+53
      = [IEEE.unit_armor; IEEE.heavy_armor]
      /\ IEEE.exhaustive_max_defense [IEEE.heavy_armor; IEEE.unit_armor] 0x1p+53
         = Some [IEEE.heavy_armor; IEEE.unit_armor]
      /\ (IEEE.exact 0x1p+53
          < IEEE.exact_cost_of [IEEE.heavy_armor; IEEE.unit_armor])%Q).
Proof.
  split; [split|split; [|split]].
  - vm_compute. discriminate.
  - exists []. split; [vm_compute; reflexivity|]. vm_compute. discriminate.
  - vm_compute. reflexivity.
  - vm_compute. reflexivity.
  - vm_compute. reflexivity.
Qed.

(** C2 (amended): for every vector and every budget of 0 or more, the cost
    that [sum_armor_vector] computes for the vector returned by
    [greedy_max_defense], and for the vector returned by
    [exhaustive_max_defense] when it returns, is within the budget; this
    cost is the sum of the doubles in the order of the returned vector, each
    addition rounded. *)
Theorem ieee_solvers_feasible (armors : IEEE.ArmorVector) (total_cost : float) :
  (0 <=? total_cost)%float = true ->
  (fst (IEEE.sum_armor_vector (IEEE.greedy_max_defense armors total_cost))
   <=? total_cost)%float = true
  /\ match IEEE.exhaustive_max_defense armors total_cost with
     | Some s => (fst (IEEE.sum_armor_vector s) <=? total_cost)%float = true
     | None => True
     end.
Proof.
  intros Hb. split; [apply ieee_greedy_max_defense_feasible, Hb|].
  destruct (IEEE.exhaustive_max_defense armors total_cost) as [s|] eqn:Hs; [|exact I].
  apply ieee_exhaustive_max_defense_candidate in Hs as [-> | (m & _ & Hfeas & _)].
  - exact Hb.
  - exact Hfeas.
Qed.

Lemma ieee_solvers_feasible_witness :
  (0 <=? 50)%float = true
  /\ (fst (IEEE.sum_armor_vector (IEEE.greedy_max_defense IEEE.scenario 50))
      <=? 50)%float = true
  /\ match IEEE.exhaustive_max_defense IEEE.scenario 50 with
     | Some s => (fst (IEEE.sum_armor_vector s) <=? 50)%float = true
     | None => True
     end.
Proof.
  split; [reflexivity | apply (ieee_solvers_feasible IEEE.scenario 50); reflexivity].
Defined.

(** ** The rounds of the greedy solver *)

(** C5 (as stated): an item of defense 0 fits the budget, yet the first round
    ends the loop and the returned vector is empty; the item A of cost 3 and
    defense 1 has a greater efficiency than the item B of cost 3 * 2^53 and
    defense 2^53 - 1, both fit, yet the first round takes B, because the two
    quotients are the same double; and the item of cost 2^600 and defense
    2^-600 fits, yet nothing is selected, because its quotient is 0.0. *)
Lemma ieee_greedy_departs :
  (IEEE.fits 0 1 IEEE.plain_armor
   /\ IEEE.greedy_max_defense [IEEE.plain_armor] 1 = [])
  /\ (IEEE.fits 0 1e17 IEEE.ring_A /\ IEEE.fits 0 1e17 IEEE.ring_B
      /\ (IEEE.exact (IEEE.defense IEEE.ring_B) / IEEE.exact (IEEE.cost IEEE.ring_B)
          < IEEE.exact (IEEE.defense IEEE.ring_A) / IEEE.exact (IEEE.cost IEEE.ring_A))%Q
      /\ IEEE.greedy_round 1e17
           (IEEE.mkGreedy [IEEE.ring_B; IEEE.ring_A] [IEEE.ring_B; IEEE.ring_A] [] 0)
         = Some (IEEE.mkGreedy [IEEE.ring_B; IEEE.ring_A] [IEEE.ring_A] [IEEE.ring_B]
                   (0 + IEEE.cost IEEE.ring_B)))
  /\ (IEEE.fits 0 0x1p+600 IEEE.faint_armor
      /\ (0 < IEEE.exact (IEEE.defense IEEE.faint_armor)
              / IEEE.exact (IEEE.cost IEEE.faint_armor))%Q
      /\ IEEE.greedy_max_defense [IEEE.faint_armor] 0x1p+600 = []).
Proof.
  repeat split; vm_compute; reflexivity.
Qed.

(** C5 (amended): on a vector of a size below 2^64, in every round of
    [greedy_max_defense], if some item of [todo] fits the remaining budget
    (the rounded sum of the accumulated cost and of its cost is within the
    budget) and has a computed efficiency above 0 (the rounded quotient of
    its defense by its cost), the round takes such an item: no item that
    fits has a greater computed efficiency, and no item that fits and comes
    before it has a computed efficiency greater or equal; a round ends the
    loop only when no item of [todo] fits with a computed efficiency above 0,
    which is the case in the final state; and when some item of the input
    fits the budget with a computed efficiency above 0, the returned vector
    is not empty. *)
Theorem ieee_greedy_rounds (armors : IEEE.ArmorVector) (total_cost : float) :
  Z.of_nat (length armors) < 2 ^ 64 ->
  (forall rounds : nat,
     let st := IEEE.greedy_loop rounds total_cost
                 (IEEE.mkGreedy armors armors [] 0%float) in
     ((exists a, a ∈ IEEE.todo st
                 /\ IEEE.selectable (IEEE.result_cost st) total_cost a) ->
      exists (k : nat) (a : IEEE.ArmorItem),
        IEEE.todo st !! k = Some a
        /\ IEEE.selectable (IEEE.result_cost st) total_cost a
        /\ (forall j a', IEEE.todo st !! j = Some a' ->
              IEEE.fits (IEEE.result_cost st) total_cost a' ->
              (IEEE.efficiency a <? IEEE.efficiency a')%float = false)
        /\ (forall j a', (j < k)%nat -> IEEE.todo st !! j = Some a' ->
              IEEE.fits (IEEE.result_cost st) total_cost a' ->
              (IEEE.efficiency a <=? IEEE.efficiency a')%float = false)
        /\ IEEE.greedy_round total_cost st
           = Some (IEEE.mkGreedy (IEEE.g_armors st) (erase (IEEE.todo st) k)
                     (push_back (IEEE.result st) a)
                     (IEEE.result_cost st + IEEE.cost a)%float))
     /\ (IEEE.greedy_round total_cost st = None ->
         forall a, a ∈ IEEE.todo st ->
                   ~ IEEE.selectable (IEEE.result_cost st) total_cost a))
  /\ (forall a, a ∈ IEEE.todo (IEEE.greedy_run armors total_cost) ->
        ~ IEEE.selectable (IEEE.result_cost (IEEE.greedy_run armors total_cost))
            total_cost a)
  /\ ((exists a, a ∈ armors /\ IEEE.selectable 0 total_cost a) ->
      IEEE.greedy_max_defense armors total_cost <> []).
Proof.
  intros Hlen.
  assert (Htodo : forall fuel,
             Z.of_nat (length (IEEE.todo (IEEE.greedy_loop fuel total_cost
                                            (IEEE.mkGreedy armors armors [] 0%float))))
             < 2 ^ 64).
  { intros fuel.
    destruct (ieee_greedy_inv_loop armors total_cost fuel _
                (ieee_greedy_inv_init armors total_cost)) as (_ & Hle & _).
    lia. }
  split; [|split].
  - intros rounds st. specialize (Htodo rounds). fold st in Htodo. split.
    + intros (a & Ha & Hsel).
      destruct (ieee_greedy_round_progress total_cost st a Htodo Ha Hsel) as [st' Hround].
      destruct (ieee_greedy_round_Some total_cost st st' Hround)
        as (k & a0 & Hk & Hsel0 & Hmax & Hfirst & Hst').
      exists k, a0. rewrite Hround, Hst'. repeat split; try assumption; apply Hsel0.
    + intros Hround. apply ieee_greedy_round_None; assumption.
  - apply ieee_greedy_round_None; [apply Htodo|].
    apply ieee_greedy_loop_final. simpl. lia.
  - intros (a & Ha & Hsel) Hempty.
    unfold IEEE.greedy_max_defense, IEEE.greedy_run in Hempty.
    destruct armors as [|first rest]; [apply elem_of_nil in Ha; contradiction|].
    cbn [length IEEE.greedy_loop] in Hempty.
    destruct (ieee_greedy_round_progress total_cost
                (IEEE.mkGreedy (first :: rest) (first :: rest) [] 0%float) a)
      as [st' Hround]; [exact Hlen | exact Ha | exact Hsel |].
    rewrite Hround in Hempty.
    pose proof (ieee_greedy_loop_result_length total_cost (length rest) st') as Hle.
    rewrite Hempty in Hle.
    apply ieee_greedy_round_Some in Hround as (k & a0 & _ & _ & _ & _ & ->).
    simpl in Hle. lia.
Qed.

Lemma ieee_greedy_rounds_witness :
  Z.of_nat (length IEEE.scenario) < 2 ^ 64
  /\ IEEE.greedy_max_defense IEEE.scenario 50 <> [].
Proof.
  split; [reflexivity|].
  apply (ieee_greedy_rounds IEEE.scenario 50); [reflexivity|].
  exists (IEEE.mkArmorItem "A" 10 60). split; [constructor|].
  split; reflexivity.
Defined.

(** ** A single item whose cost is the budget *)

(** C6 (as stated): with a budget equal to its cost, the item of cost 1 and
    defense 0 is returned by neither solver, and the item of cost 2^600 and
    defense 2^-600, both above 0, is not returned by [greedy_max_defense],
    because the quotient of its defense by its cost is the double 0.0. *)
Lemma ieee_single_item_departs :
  ((0 <? IEEE.cost IEEE.plain_armor)%float = true
   /\ (0 <=? IEEE.defense IEEE.plain_armor)%float = true
   /\ IEEE.greedy_max_defense [IEEE.plain_armor] (IEEE.cost IEEE.plain_armor)
      <> [IEEE.plain_armor]
   /\ IEEE.exhaustive_max_defense [IEEE.plain_armor] (IEEE.cost IEEE.plain_armor)
      <> Some [IEEE.plain_armor])
  /\ ((0 <? IEEE.cost IEEE.faint_armor)%float = true
      /\ (0 <? IEEE.defense IEEE.faint_armor)%float = true
      /\ IEEE.greedy_max_defense [IEEE.faint_armor] (IEEE.cost IEEE.faint_armor)
         <> [IEEE.faint_armor]).
Proof.
  assert (Hg : IEEE.greedy_max_defense [IEEE.plain_armor] (IEEE.cost IEEE.plain_armor) = [])
    by (vm_compute; reflexivity).
  assert (He : IEEE.exhaustive_max_defense [IEEE.plain_armor] (IEEE.cost IEEE.plain_armor)
               = Some []) by (vm_compute; reflexivity).
  assert (Hf : IEEE.greedy_max_defense [IEEE.faint_armor] (IEEE.cost IEEE.faint_armor) = [])
    by (vm_compute; reflexivity).
  rewrite Hg, He, Hf.
  repeat split; try reflexivity; discriminate.
Qed.

Lemma ieee_greedy_single (a : IEEE.ArmorItem) :
  (0 <? IEEE.cost a)%float = true ->
  (0 <? IEEE.defense a / IEEE.cost a)%float = true ->
  IEEE.greedy_max_defense [a] (IEEE.cost a) = [a].
Proof.
  intros Hc Hq.
  unfold IEEE.greedy_max_defense, IEEE.greedy_run.
  cbn [length IEEE.greedy_loop]. unfold IEEE.greedy_round.
  cbn [IEEE.todo IEEE.result_cost IEEE.g_armors IEEE.result IEEE.scan
       IEEE.max_armor_value].
  rewrite (float_add_zero_l _ Hc), (float_leb_refl _ Hc), Hq.
  reflexivity.
Qed.

Lemma ieee_exhaustive_single (a : IEEE.ArmorItem) :
  (0 <? IEEE.cost a)%float = true ->
  (0 <? IEEE.defense a)%float = true ->
  IEEE.exhaustive_max_defense [a] (IEEE.cost a) = Some [a].
Proof.
  intros Hc Hv.
  unfold IEEE.exhaustive_max_defense, IEEE.exhaustive_run.
  change (int_of_size (Z.of_nat (length [a]))) with 1.
  change (1 <? 64) with true. change (exhaustive_fuel 1) with 2%nat.
  cbn [IEEE.exhaustive_loop].
  change (loop_guard 0 1) with true. change ((0 + 1) mod 2 ^ 64) with 1.
  change (loop_guard 1 1) with true. cbv iota.
  unfold IEEE.exhaustive_body at 2.
  cbn [IEEE.e_armors IEEE.flag IEEE.best_defense IEEE.bestVector].
  change (IEEE.build_candidates [a] 1 0) with (@nil IEEE.ArmorItem).
  change (IEEE.sum_armor_vector []) with (0%float, 0%float). cbn [fst snd negb orb].
  rewrite (float_ltb_leb _ _ Hc).
  unfold IEEE.exhaustive_body.
  cbn [IEEE.e_armors IEEE.flag IEEE.best_defense IEEE.bestVector].
  change (IEEE.build_candidates [a] 1 1) with [a].
  change (IEEE.sum_armor_vector [a])
    with ((0 + IEEE.cost a)%float, (0 + IEEE.defense a)%float).
  cbn [fst snd negb orb].
  rewrite (float_add_zero_l _ Hc), (float_add_zero_l _ Hv), (float_leb_refl _ Hc), Hv.
  reflexivity.
Qed.

(** C6 (amended): for a single item of cost [C] above 0 and of defense above
    0 whose quotient by [C], as a double, is above 0, and the budget [C],
    both solvers return the vector of that item. *)
Theorem ieee_single_item_selected (a : IEEE.ArmorItem) :
  (0 <? IEEE.cost a)%float = true ->
  (0 <? IEEE.defense a)%float = true ->
  (0 <? IEEE.defense a / IEEE.cost a)%float = true ->
  IEEE.greedy_max_defense [a] (IEEE.cost a) = [a]
  /\ IEEE.exhaustive_max_defense [a] (IEEE.cost a) = Some [a].
Proof.
  intros Hc Hv Hq.
  split; [apply ieee_greedy_single | apply ieee_exhaustive_single]; assumption.
Qed.

Lemma ieee_single_item_selected_witness :
  (0 <? IEEE.cost IEEE.unit_armor)%float = true
  /\ (0 <? IEEE.defense IEEE.unit_armor)%float = true
  /\ (0 <? IEEE.defense IEEE.unit_armor / IEEE.cost IEEE.unit_armor)%float = true
  /\ IEEE.greedy_max_defense [IEEE.unit_armor] (IEEE.cost IEEE.unit_armor)
     = [IEEE.unit_armor]
  /\ IEEE.exhaustive_max_defense [IEEE.unit_armor] (IEEE.cost IEEE.unit_armor)
     = Some [IEEE.unit_armor].
Proof.
  split; [reflexivity|]. split; [reflexivity|]. split; [reflexivity|].
  apply (ieee_single_item_selected IEEE.unit_armor); reflexivity.
Defined.

(** ** What the exhaustive solver returns up to 53 items *)

(** X10: up to 53 items, [exhaustive_max_defense] returns a vector, and when
    some sub-sequence of the input has a computed cost within the budget, so
    has the returned vector, and no such sub-sequence has a greater computed
    total defense; costs and defenses are the sums of doubles that
    [sum_armor_vector] computes, in the order of the input. *)
Theorem ieee_exhaustive_max_defense_optimal (armors : IEEE.ArmorVector)
    (total_cost : float) :
  (length armors <= 53)%nat ->
  exists s,
    IEEE.exhaustive_max_defense armors total_cost = Some s
    /\ forall t, t `sublist_of` armors -> IEEE.feasible total_cost t ->
         IEEE.feasible total_cost s
         /\ (IEEE.total_defense_of s <? IEEE.total_defense_of t)%float = false.
Proof.
  intros Hlen.
  destruct (ieee_exhaustive_max_defense_returns armors total_cost) as [s Hs]; [lia|].
  exists s. split; [exact Hs|]. intros t Hsub Hfeas.
  apply ieee_exhaustive_max_defense_Some in Hs as (st & Hrun & <-).
  apply ieee_exhaustive_run_all_masks in Hrun as (_ & Hnone & Hsome); [|exact Hlen].
  apply ieee_sublist_select in Hsub as (m & Hm & <-).
  rewrite <- ieee_build_candidates_full in Hfeas |- *.
  destruct (IEEE.flag st).
  - destruct (Hsome eq_refl) as (m0 & _ & -> & _ & Hfeas0 & Hmax & _).
    split; [exact Hfeas0 | apply Hmax; assumption].
  - destruct (Hnone eq_refl) as [_ Hno]. exfalso. apply (Hno m Hm), Hfeas.
Qed.

Lemma ieee_exhaustive_max_defense_optimal_witness :
  (length IEEE.scenario <= 53)%nat
  /\ exists s,
       IEEE.exhaustive_max_defense IEEE.scenario 50 = Some s
       /\ forall t, t `sublist_of` IEEE.scenario -> IEEE.feasible 50 t ->
            IEEE.feasible 50 s
            /\ (IEEE.total_defense_of s <? IEEE.total_defense_of t)%float = false.
Proof.
  split; [simpl; lia|].
  apply (ieee_exhaustive_max_defense_optimal IEEE.scenario 50). simpl. lia.
Defined.

(** X11: up to 53 items, [exhaustive_max_defense] returns the empty vector
    when no mask gives a candidate of a computed cost within the budget, and
    otherwise the candidate of a mask [m] within the budget such that no
    candidate within the budget has a greater computed total defense, and
    the candidate of no smaller mask within the budget has a computed total
    defense greater or equal: an equal defense met later never replaces the
    stored one. *)
Theorem ieee_exhaustive_max_defense_first_best (armors : IEEE.ArmorVector)
    (total_cost : float) :
  (length armors <= 53)%nat ->
  exists s,
    IEEE.exhaustive_max_defense armors total_cost = Some s
    /\ ((s = []
         /\ forall m, 0 <= m < 2 ^ Z.of_nat (length armors) ->
                      ~ IEEE.feasible total_cost (IEEE.select_from 0 armors m))
        \/ exists m,
             0 <= m < 2 ^ Z.of_nat (length armors)
             /\ s = IEEE.select_from 0 armors m
             /\ IEEE.feasible total_cost s
             /\ (forall m', 0 <= m' < 2 ^ Z.of_nat (length armors) ->
                   IEEE.feasible total_cost (IEEE.select_from 0 armors m') ->
                   (IEEE.total_defense_of s
                    <? IEEE.total_defense_of (IEEE.select_from 0 armors m'))%float
                   = false)
             /\ (forall m', 0 <= m' < m ->
                   IEEE.feasible total_cost (IEEE.select_from 0 armors m') ->
                   (IEEE.total_defense_of s
                    <=? IEEE.total_defense_of (IEEE.select_from 0 armors m'))%float
                   = false)).
Proof.
  intros Hlen.
  destruct (ieee_exhaustive_max_defense_returns armors total_cost) as [s Hs]; [lia|].
  exists s. split; [exact Hs|].
  apply ieee_exhaustive_max_defense_Some in Hs as (st & Hrun & <-).
  apply ieee_exhaustive_run_all_masks in Hrun as (_ & Hnone & Hsome); [|exact Hlen].
  destruct (IEEE.flag st).
  - right. destruct (Hsome eq_refl) as (m & Hm & Hbest & _ & Hfeas & Hmax & Hfirst).
    exists m. rewrite Hbest, ieee_build_candidates_full in *.
    split; [exact Hm|]. split; [reflexivity|]. split; [exact Hfeas|]. split.
    + intros m' Hm' Hfeas'. specialize (Hmax m' Hm').
      rewrite ieee_build_candidates_full in Hmax. apply Hmax, Hfeas'.
    + intros m' Hm' Hfeas'. specialize (Hfirst m' Hm').
      rewrite ieee_build_candidates_full in Hfirst. apply Hfirst, Hfeas'.
  - left. destruct (Hnone eq_refl) as [Hbest Hno]. split; [exact Hbest|].
    intros m Hm Hfeas. apply (Hno m Hm).
    rewrite ieee_build_candidates_full. exact Hfeas.
Qed.

Lemma ieee_exhaustive_max_defense_first_best_witness :
  (length IEEE.scenario <= 53)%nat
  /\ exists s, IEEE.exhaustive_max_defense IEEE.scenario 50 = Some s.
Proof.
  split; [simpl; lia|].
  destruct (ieee_exhaustive_max_defense_first_best IEEE.scenario 50) as (s & Hs & _);
    [simpl; lia | exists s; exact Hs].
Defined.

(** ** filter_armor_vector on doubles *)

Lemma ieee_filter_loop_spec (source : IEEE.ArmorVector) (lo hi : float) (total_size : Z) :
  forall filtered : IEEE.ArmorVector,
    IEEE.filter_loop source lo hi total_size filtered
    = filtered ++
      take (Nat.max 1 (Z.to_nat (size_of_int total_size - Z.of_nat (length filtered))))
           (List.filter (IEEE.qualifies lo hi) source).
Proof.
  induction source as [|a source IH]; intros filtered; simpl.
  - now rewrite take_nil, app_nil_r.
  - unfold IEEE.qualifies at 1.
    destruct ((lo <=? IEEE.defense a)%float && (IEEE.defense a <=? hi)%float); simpl.
    + unfold push_back. rewrite length_app. simpl.
      destruct (Z.leb_spec (size_of_int total_size) (Z.of_nat (length filtered + 1)))
        as [Hle|Hgt].
      * replace (Nat.max 1 (Z.to_nat (size_of_int total_size - Z.of_nat (length filtered))))
          with 1%nat by lia.
        reflexivity.
      * rewrite IH, length_app. simpl.
        replace (Nat.max 1 (Z.to_nat (size_of_int total_size - Z.of_nat (length filtered))))
          with (S (Nat.max 1 (Z.to_nat (size_of_int total_size
                                          - Z.of_nat (length filtered + 1))))) by lia.
        simpl. now rewrite <- app_assoc.
    + apply IH.
Qed.

Lemma ieee_filter_armor_vector_positive (source : IEEE.ArmorVector) (lo hi : float)
    (total_size : Z) :
  0 < total_size < 2 ^ 31 ->
  IEEE.filter_armor_vector source lo hi total_size
  = take (Z.to_nat total_size) (List.filter (IEEE.qualifies lo hi) source).
Proof.
  intros Hts. unfold IEEE.filter_armor_vector. rewrite ieee_filter_loop_spec. simpl.
  rewrite size_of_int_nonneg by lia.
  f_equal. lia.
Qed.

Lemma ieee_filter_armor_vector_items (source : IEEE.ArmorVector) (lo hi : float)
    (total_size : Z) :
  Forall (fun a => IEEE.qualifies lo hi a = true)
         (IEEE.filter_armor_vector source lo hi total_size).
Proof.
  unfold IEEE.filter_armor_vector. rewrite ieee_filter_loop_spec. simpl.
  apply Forall_forall. intros a Ha.
  assert (Hin : a ∈ List.filter (IEEE.qualifies lo hi) source).
  { eapply elem_of_submseteq; [exact Ha|]. apply sublist_submseteq, sublist_take. }
  apply list_elem_of_In, filter_In in Hin. apply Hin.
Qed.

Lemma ieee_filter_armor_vector_sublist (source : IEEE.ArmorVector) (lo hi : float)
    (total_size : Z) :
  IEEE.filter_armor_vector source lo hi total_size `sublist_of` source.
Proof.
  unfold IEEE.filter_armor_vector. rewrite ieee_filter_loop_spec. simpl.
  transitivity (List.filter (IEEE.qualifies lo hi) source);
    [apply sublist_take | apply filter_sublist].
Qed.

Lemma ieee_filter_armor_vector_length (source : IEEE.ArmorVector) (lo hi : float)
    (total_size : Z) :
  0 < total_size < 2 ^ 31 ->
  Z.of_nat (length (IEEE.filter_armor_vector source lo hi total_size)) <= total_size.
Proof.
  intros Hts. rewrite ieee_filter_armor_vector_positive by exact Hts.
  rewrite length_take. lia.
Qed.

(** ** load_armor_database with extractions that may store nothing *)

Lemma ieee_new_ArmorItem_Some (d : string) (c v : float) (a : IEEE.ArmorItem) :
  IEEE.new_ArmorItem d c v = Some a
  <-> a = IEEE.mkArmorItem d c v /\ IEEE.ArmorItem_ok a.
Proof.
  unfold IEEE.new_ArmorItem, IEEE.ArmorItem_ok. split.
  - destruct (String.eqb_spec d EmptyString) as [Heq|Hne]; [discriminate|]. simpl.
    destruct (0 <? c)%float eqn:Hc; [|discriminate].
    intros Ha. apply (inj Some) in Ha. subst a. simpl. auto.
  - intros [-> [Hd Hc]]. simpl in Hd, Hc.
    destruct (String.eqb_spec d EmptyString) as [Heq|Hne]; [contradiction|]. simpl.
    now rewrite Hc.
Qed.

Section IeeeLoad.
Variable read_double : string -> option float.

(** After the header, the loop gives a vector exactly when every line holds
    the record of an item, and it pushes these items in order. *)
Lemma ieee_load_lines_Loaded (lines : list string) :
  forall (line_number : Z) (result v : IEEE.ArmorVector),
    1 <= line_number -> line_number + Z.of_nat (length lines) < 2 ^ 64 ->
    (IEEE.load_lines read_double lines line_number result = IEEE.Loaded v
     <-> exists items,
           v = result ++ items /\ Forall2 (IEEE.record_of read_double) lines items).
Proof.
  induction lines as [|line lines IH]; intros line_number result v Hln Hlen.
  - simpl. split.
    + intros Hv. injection Hv as <-. exists []. split; [now rewrite app_nil_r | constructor].
    + intros (items & -> & Hrec). inversion Hrec. now rewrite app_nil_r.
  - cbn [IEEE.load_lines]. rewrite Z.mod_small by (simpl in Hlen; lia).
    destruct (Z.eqb_spec (line_number + 1) 1) as [Heq|_]; [lia|].
    assert (Hlen' : line_number + 1 + Z.of_nat (length lines) < 2 ^ 64)
      by (simpl in Hlen; lia).
    unfold IEEE.parse_dbl. cbn [fst snd andb].
    split.
    + destruct (getline_all "^"%char line) as [|d [|cf [|df [|]]]] eqn:Hfields;
        try discriminate.
      destruct (read_double cf) as [c|] eqn:Hc; [|discriminate].
      destruct (read_double df) as [p|] eqn:Hp; [|discriminate].
      destruct (IEEE.new_ArmorItem d c p) as [armor|] eqn:Hnew; [|discriminate].
      intros Hv. apply IH in Hv as (items & -> & Hrec); [|lia|exact Hlen'].
      exists (armor :: items). unfold push_back. rewrite <- app_assoc.
      split; [reflexivity|].
      constructor; [|exact Hrec].
      apply ieee_new_ArmorItem_Some in Hnew as [-> Hok].
      exists cf, df. simpl. now rewrite Hfields.
    + intros (items & -> & Hrec).
      inversion Hrec as [|line' a lines' items' (cf & df & Hfields & Hc & Hd & Hok) Hrec'];
        subst.
      rewrite Hfields, Hc, Hd.
      assert (Hnew : IEEE.new_ArmorItem (IEEE.description a) (IEEE.cost a) (IEEE.defense a)
                     = Some a).
      { apply ieee_new_ArmorItem_Some. split; [|exact Hok]. now destruct a. }
      rewrite Hnew. apply IH; [lia | exact Hlen'|].
      exists items'. unfold push_back. rewrite <- app_assoc. now split.
Qed.

Lemma ieee_load_lines_ok (lines : list string) :
  forall (line_number : Z) (result v : IEEE.ArmorVector),
    Forall IEEE.ArmorItem_ok result ->
    IEEE.load_lines read_double lines line_number result = IEEE.Loaded v ->
    Forall IEEE.ArmorItem_ok v.
Proof.
  induction lines as [|line lines IH]; intros line_number result v Hok.
  - simpl. intros Hv. injection Hv as <-. exact Hok.
  - cbn [IEEE.load_lines].
    destruct ((line_number + 1) mod 2 ^ 64 =? 1); [apply IH, Hok|].
    unfold IEEE.parse_dbl. cbn [fst snd andb].
    destruct (getline_all "^"%char line) as [|d [|cf [|df [|]]]]; try discriminate.
    destruct (read_double cf) as [c|]; [|discriminate].
    destruct (read_double df) as [p|]; [|discriminate].
    destruct (IEEE.new_ArmorItem d c p) as [armor|] eqn:Hnew; [|discriminate].
    apply IH. unfold push_back. apply Forall_app. split; [exact Hok|].
    constructor; [|constructor]. apply ieee_new_ArmorItem_Some in Hnew. apply Hnew.
Qed.

Lemma ieee_load_armor_database_ok (file : option string) (v : IEEE.ArmorVector) :
  IEEE.load_armor_database read_double file = IEEE.Loaded v ->
  Forall IEEE.ArmorItem_ok v.
Proof.
  destruct file as [content|]; simpl; [|discriminate].
  apply ieee_load_lines_ok. constructor.
Qed.
End IeeeLoad.

Lemma ieee_sample_file_loaded :
  IEEE.load_armor_database IEEE.read_unsigned (Some sample_file)
  = IEEE.Loaded [IEEE.mkArmorItem "helmet" 10 60; IEEE.mkArmorItem "shield" 20 100].
Proof. vm_compute. reflexivity. Defined.

(** X17: for a file of fewer than 2^64 lines, [load_armor_database] returns a
    vector, without reading a [double] that was never stored, exactly when
    every line after the first holds the record of an item: three fields, a
    description that is not empty, two numeric fields from which the
    extraction stores a value, and a cost stored above 0.  The vector then
    has one item for each of these lines, in the order of the file: no line
    is skipped. *)
Theorem ieee_load_armor_database_records (read_double : string -> option float)
    (content : string) (v : IEEE.ArmorVector) :
  Z.of_nat (length (getline_all "010"%char content)) < 2 ^ 64 ->
  (IEEE.load_armor_database read_double (Some content) = IEEE.Loaded v
   <-> Forall2 (IEEE.record_of read_double) (tail (getline_all "010"%char content)) v).
Proof.
  intros Hlen. cbn [IEEE.load_armor_database].
  destruct (getline_all "010"%char content) as [|header lines].
  - simpl. split.
    + intros Hv. injection Hv as <-. constructor.
    + intros Hrec. inversion Hrec. reflexivity.
  - cbn [IEEE.load_lines tail]. change ((0 + 1) mod 2 ^ 64) with 1.
    change (1 =? 1) with true. cbv iota.
    rewrite length_cons, Nat2Z.inj_succ in Hlen.
    rewrite ieee_load_lines_Loaded by lia.
    split.
    + intros (items & -> & Hrec). exact Hrec.
    + intros Hrec. now exists v.
Qed.

Lemma ieee_load_armor_database_records_witness :
  Z.of_nat (length (getline_all "010"%char sample_file)) < 2 ^ 64
  /\ Forall2 (IEEE.record_of IEEE.read_unsigned) (tail (getline_all "010"%char sample_file))
       [IEEE.mkArmorItem "helmet" 10 60; IEEE.mkArmorItem "shield" 20 100].
Proof.
  assert (Hlen : Z.of_nat (length (getline_all "010"%char sample_file)) < 2 ^ 64)
    by reflexivity.
  split; [exact Hlen|].
  apply (ieee_load_armor_database_records IEEE.read_unsigned sample_file _ Hlen).
  exact ieee_sample_file_loaded.
Defined.

(** ** main: load, filter, exhaustive search *)

(** X19: whenever the database is loaded, [main] passes the assertion of
    [exhaustive_max_defense] and ends with a solution of at most 6 items of
    the database, in the order of the database, each of a cost above 0 and
    of a defense between 1 and 2500, whose computed cost (the sum of the
    doubles in that order) is at most 500, and no sub-sequence of the
    filtered vector of a computed cost within 500 has a greater computed
    total defense. *)
Theorem ieee_main_solution (read_double : string -> option float) (file : option string)
    (all_armors : IEEE.ArmorVector) :
  IEEE.load_armor_database read_double file = IEEE.Loaded all_armors ->
  exists s,
    IEEE.main read_double file = Some s
    /\ (length s <= 6)%nat
    /\ s `sublist_of` all_armors
    /\ Forall (fun a => (0 <? IEEE.cost a)%float = true
                        /\ (1 <=? IEEE.defense a)%float = true
                        /\ (IEEE.defense a <=? 2500)%float = true) s
    /\ IEEE.feasible 500 s
    /\ forall t, t `sublist_of` IEEE.filter_armor_vector all_armors 1 2500 6 ->
                 IEEE.feasible 500 t ->
                 (IEEE.total_defense_of s <? IEEE.total_defense_of t)%float = false.
Proof.
  intros Hload.
  pose proof (ieee_load_armor_database_ok read_double file all_armors Hload) as Hok.
  pose proof (ieee_filter_armor_vector_length all_armors 1 2500 6 ltac:(lia)) as Hlen.
  pose proof (ieee_filter_armor_vector_sublist all_armors 1 2500 6) as Hsub.
  pose proof (ieee_filter_armor_vector_items all_armors 1 2500 6) as Hitems.
  set (filtered := IEEE.filter_armor_vector all_armors 1 2500 6) in *.
  destruct (ieee_exhaustive_max_defense_returns filtered 500) as [s Hs]; [lia|].
  pose proof (ieee_exhaustive_max_defense_sublist _ _ _ Hs) as Hsub'.
  exists s. unfold IEEE.main. rewrite Hload. fold filtered.
  split; [exact Hs|]. split; [|split; [|split; [|split]]].
  - apply sublist_length in Hsub'. lia.
  - transitivity filtered; assumption.
  - apply Forall_forall. intros a Ha.
    assert (Ha' : a ∈ filtered)
      by (eapply elem_of_submseteq; [exact Ha | apply sublist_submseteq, Hsub']).
    split.
    + apply (proj1 (Forall_forall _ _) Hok a).
      eapply elem_of_submseteq; [exact Ha' | apply sublist_submseteq, Hsub].
    + apply andb_true_iff. apply (proj1 (Forall_forall _ _) Hitems a Ha').
  - apply ieee_exhaustive_max_defense_candidate in Hs as [-> | (m & _ & Hfeas & _)];
      [reflexivity | exact Hfeas].
  - intros t Ht Hfeas.
    apply ieee_exhaustive_max_defense_Some in Hs as (st & Hrun & <-).
    apply ieee_exhaustive_run_all_masks in Hrun as (_ & Hnone & Hsome); [|lia].
    apply ieee_sublist_select in Ht as (m & Hm & <-).
    rewrite <- ieee_build_candidates_full in Hfeas |- *.
    destruct (IEEE.flag st).
    + destruct (Hsome eq_refl) as (m0 & _ & -> & _ & _ & Hmax & _).
      apply Hmax; assumption.
    + destruct (Hnone eq_refl) as [_ Hno]. exfalso. apply (Hno m Hm), Hfeas.
Qed.

Lemma ieee_main_solution_witness :
  IEEE.load_armor_database IEEE.read_unsigned (Some sample_file)
  = IEEE.Loaded [IEEE.mkArmorItem "helmet" 10 60; IEEE.mkArmorItem "shield" 20 100]
  /\ exists s, IEEE.main IEEE.read_unsigned (Some sample_file) = Some s
               /\ IEEE.feasible 500 s.
Proof.
  split; [exact ieee_sample_file_loaded|].
  destruct (ieee_main_solution IEEE.read_unsigned (Some sample_file) _
              ieee_sample_file_loaded)
    as (s & Hs & _ & _ & _ & Hfeas & _).
  exists s. split; [exact Hs | exact Hfeas].
Defined.

(** ** Greedy against exhaustive on rounded sums *)

(** X12: the vector returned by [exhaustive_max_defense] can have a smaller
    total defense than the one returned by [greedy_max_defense] on three
    items: with the costs 0.1, 0.2, 0.3, the defenses 1, 10, 30 and the
    budget 0.6, the greedy solver adds the costs as 0.3 + 0.2 + 0.1, which is
    the double 0.6, and takes the three items (defense 41), while the
    exhaustive solver adds them as 0.1 + 0.2 + 0.3, which is the double above
    0.6, and returns the last two items (defense 40). *)
Theorem ieee_exhaustive_below_greedy_rounding :
  let a := IEEE.mkArmorItem "a" 0x1.999999999999ap-4 1 in
  let b := IEEE.mkArmorItem "b" 0x1.999999999999ap-3 10 in
  let c := IEEE.mkArmorItem "c" 0x1.3333333333333p-2 30 in
  let budget := 0x1.3333333333333p-1%float in
  IEEE.greedy_max_defense [a; b; c] budget = [c; b; a]
  /\ IEEE.exhaustive_max_defense [a; b; c] budget = Some [b; c]
  /\ IEEE.total_defense_of [c; b; a] = 41%float
  /\ IEEE.total_defense_of [b; c] = 40%float
  /\ IEEE.feasible budget [c; b; a]
  /\ ~ IEEE.feasible budget [a; b; c].
Proof.
  cbv zeta. repeat split; try (vm_compute; reflexivity).
  vm_compute. discriminate.
Qed.
